(** * N-body simulation: the force kernel [calc_acc] and the leapfrog loop

    A shallow embedding of [n_body_simulation.py].  NumPy's float64 arrays
    are modelled over the real numbers [R] (exact arithmetic): an N x 3
    array is a list of N rows [vec3], an N x 1 column is a list of N reals,
    an N x N array is a list of N rows carrying its column count.  The
    exception raised by a NumPy or Python operation is an [error] in a
    [result]. *)

From Stdlib Require Import Reals List Lia Lra ZArith Bool.
From Stdlib Require String Decimal DecimalString DecimalNat.
Import ListNotations String.StringSyntax.
Delimit Scope string_scope with string.

Local Open Scope R_scope.

(** ** Results of fallible operations *)

Inductive error : Type :=
| ValueError        (* shapes that do not agree, a negative dimension *)
| IndexError        (* an index out of bounds *)
| ZeroDivisionError (* float division by zero *)
| TypeError.        (* a reference to no array, or to one of another kind *)

Inductive result (A : Type) : Type :=
| Ok (a : A)
| Err (e : error).

Arguments Ok {A} a.
Arguments Err {A} e.

Definition rbind {A B : Type} (r : result A) (k : A -> result B) : result B :=
  match r with
  | Ok a => k a
  | Err e => Err e
  end.

Declare Scope result_scope.
Delimit Scope result_scope with result.
Notation "'let*' x ':=' c 'in' k" := (rbind c (fun x => k))
  (at level 10, x name, c at level 100, k at level 200) : result_scope.

(** ** Arrays *)

(** One row of an N x 3 array. *)
Record vec3 : Type := V3 { vx : R; vy : R; vz : R }.

Definition vzero : vec3 := V3 0 0 0.

Definition vplus (a b : vec3) : vec3 :=
  V3 (vx a + vx b) (vy a + vy b) (vz a + vz b).

Definition vminus (a b : vec3) : vec3 :=
  V3 (vx a - vx b) (vy a - vy b) (vz a - vz b).

Definition vscale (k : R) (a : vec3) : vec3 :=
  V3 (k * vx a) (k * vy a) (k * vz a).

(** A two-dimensional array with its number of columns, which NumPy keeps
    in the shape even when there are no rows. *)
Record mat : Type := Mat { ncols : nat; rows : list (list R) }.

(** [pos[:,0:1]], [pos[:,1:2]], [pos[:,2:3]]: the three N x 1 columns. *)
Definition col_x (pos : list vec3) : list R := map vx pos.
Definition col_y (pos : list vec3) : list R := map vy pos.
Definition col_z (pos : list vec3) : list R := map vz pos.

(** [x.T - x] for an N x 1 column [x]: the 1 x N row is broadcast against
    the N x 1 column, entry (i, j) is [x[j] - x[i]]. *)
Definition outer_diff (x : list R) : mat :=
  Mat (length x) (map (fun xi => map (fun xj => xj - xi) x) x).

(** Elementwise operations on arrays of one shape. *)
Fixpoint zip_with {A B C : Type} (f : A -> B -> C) (l : list A) (l' : list B)
  : list C :=
  match l, l' with
  | a :: t, b :: t' => f a b :: zip_with f t t'
  | _, _ => []
  end.

Definition mat_map (f : R -> R) (m : mat) : mat :=
  Mat (ncols m) (map (map f) (rows m)).

Definition mat_map2 (f : R -> R -> R) (m m' : mat) : mat :=
  Mat (ncols m) (zip_with (zip_with f) (rows m) (rows m')).

Definition sqr (r : R) : R := r ^ 2.

(** [dx**2 + dy**2 + dz**2 + softening**2], evaluated left to right. *)
Definition soft_dist2 (dx dy dz : mat) (softening : R) : mat :=
  mat_map (fun s => s + softening ^ 2)
    (mat_map2 Rplus (mat_map2 Rplus (mat_map sqr dx) (mat_map sqr dy))
       (mat_map sqr dz)).

(** *** Boolean-mask indexing *)

Definition gt0 (r : R) : bool := if Rlt_dec 0 r then true else false.

(** [inv_r3 > 0]: the boolean array of the same shape. *)
Definition mask_gt0 (m : list (list R)) : list (list bool) := map (map gt0) m.

(** [a[mask]]: the selected entries, in row-major order, as a flat array. *)
Fixpoint select_row (r : list R) (b : list bool) : list R :=
  match r, b with
  | s :: r', true :: b' => s :: select_row r' b'
  | _ :: r', false :: b' => select_row r' b'
  | _, _ => []
  end.

Fixpoint select (m : list (list R)) (mask : list (list bool)) : list R :=
  match m, mask with
  | r :: m', b :: mask' => select_row r b ++ select m' mask'
  | _, _ => []
  end.

(** [a[mask] = vals]: the selected entries are overwritten, in row-major
    order, by the successive values; the others keep their content.  The
    second component is what remains of [vals].  (NumPy raises when the
    number of values differs from the number of selected entries; in
    [calc_acc] the values are computed from the selection itself.) *)
Fixpoint assign_row (r : list R) (b : list bool) (vals : list R)
  : list R * list R :=
  match r, b with
  | s :: r', true :: b' =>
      match vals with
      | v :: vals' =>
          let (out, rest) := assign_row r' b' vals' in (v :: out, rest)
      | [] => (r, [])
      end
  | s :: r', false :: b' =>
      let (out, rest) := assign_row r' b' vals in (s :: out, rest)
  | _, _ => (r, vals)
  end.

Fixpoint assign (m : list (list R)) (mask : list (list bool)) (vals : list R)
  : list (list R) :=
  match m, mask with
  | r :: m', b :: mask' =>
      let (out, rest) := assign_row r b vals in out :: assign m' mask' rest
  | _, _ => m
  end.

(** [** (-1.5)] on a float array. *)
Definition pow_m15 (s : R) : R := Rpower s (-1.5).

(** [inv_r3[inv_r3>0] = inv_r3[inv_r3>0]**(-1.5)] *)
Definition masked_pow (m : mat) : mat :=
  Mat (ncols m)
    (assign (rows m) (mask_gt0 (rows m))
       (map pow_m15 (select (rows m) (mask_gt0 (rows m))))).

(** *** Matrix product with a column *)

Fixpoint dot (r : list R) (v : list R) : R :=
  match r, v with
  | a :: r', b :: v' => a * b + dot r' v'
  | _, _ => 0
  end.

(** [m @ v] for [m] of shape (n, k) and [v] of shape (l, 1): NumPy raises
    ValueError unless k = l. *)
Definition matmul_col (m : mat) (v : list R) : result (list R) :=
  if Nat.eqb (ncols m) (length v)
  then Ok (map (fun r => dot r v) (rows m))
  else Err ValueError.

(** [np.hstack((ax,ay,az))] of three N x 1 columns: NumPy raises ValueError
    unless the three have the same number of rows. *)
Definition hstack3 (ax ay az : list R) : result (list vec3) :=
  if Nat.eqb (length ax) (length ay) && Nat.eqb (length ay) (length az)
  then Ok (zip_with (fun p c => V3 (fst p) (snd p) c) (combine ax ay) az)
  else Err ValueError.

(** ** The force kernel *)

Local Open Scope result_scope.

(** [G * (d * inv_r3) @ mass]: [*] and [@] have the same precedence and
    associate to the left, so the scalar multiplies the N x N array before
    the product with [mass]. *)
Definition weighted (G : R) (d inv_r3 : mat) (mass : list R)
  : result (list R) :=
  matmul_col (mat_map (fun s => G * s) (mat_map2 Rmult d inv_r3)) mass.

(** [calc_acc], on the values of the arrays. *)
Definition calc_acc (pos : list vec3) (mass : list R) (G softening : R)
  : result (list vec3) :=
  let x := col_x pos in
  let y := col_y pos in
  let z := col_z pos in
  let dx := outer_diff x in
  let dy := outer_diff y in
  let dz := outer_diff z in
  let inv_r3 := soft_dist2 dx dy dz softening in
  let inv_r3 := masked_pow inv_r3 in
  let* ax := weighted G dx inv_r3 mass in
  let* ay := weighted G dy inv_r3 mass in
  let* az := weighted G dz inv_r3 mass in
  let* a := hstack3 ax ay az in
  Ok a.

(** ** The force kernel on a store of arrays

    [calc_acc] receives references to arrays, takes views of [pos], binds
    new arrays to its local names and overwrites one of them in place.
    Here the arrays live in a store; a name is bound to a reference; a view
    shares the buffer of its base array.  Only the arrays bound to a name
    get a cell: the temporaries of an expression are dropped when its
    statement ends. *)

Definition ref : Type := nat.

Inductive array : Type :=
| Arr3 (a : list vec3)    (* N x 3 *)
| Col (c : list R)        (* N x 1 *)
| Sq (m : mat).           (* N x N *)

Definition store : Type := list array.

(** A computation on the store that may raise; the store reached when it
    raises is kept. *)
Definition M (A : Type) : Type := store -> result A * store.

Definition mret {A : Type} (a : A) : M A := fun h => (Ok a, h).

Definition mbind {A B : Type} (c : M A) (k : A -> M B) : M B :=
  fun h =>
    match c h with
    | (Ok a, h') => k a h'
    | (Err e, h') => (Err e, h')
    end.

Definition lift {A : Type} (r : result A) : M A := fun h => (r, h).

Declare Scope store_scope.
Delimit Scope store_scope with store.
Notation "x <- c ;; k" := (mbind c (fun x => k))
  (at level 61, c at next level, right associativity) : store_scope.

Local Open Scope store_scope.

(** A new array: a new cell at the end of the store. *)
Definition alloc (v : array) : M ref :=
  fun h => (Ok (List.length h), h ++ [v]).

Definition load (r : ref) : M array :=
  fun h =>
    match nth_error h r with
    | Some v => (Ok v, h)
    | None => (Err TypeError, h)
    end.

Definition load_arr3 (r : ref) : M (list vec3) :=
  v <- load r ;;
  match v with Arr3 a => mret a | _ => lift (Err TypeError) end.

Definition load_col (r : ref) : M (list R) :=
  v <- load r ;;
  match v with Col c => mret c | _ => lift (Err TypeError) end.

Definition load_sq (r : ref) : M mat :=
  v <- load r ;;
  match v with Sq m => mret m | _ => lift (Err TypeError) end.

Fixpoint list_set {A : Type} (k : nat) (v : A) (l : list A) : list A :=
  match l, k with
  | [], _ => []
  | _ :: t, O => v :: t
  | a :: t, S k' => a :: list_set k' v t
  end.

(** Writing into the buffer of an existing array. *)
Definition overwrite (r : ref) (v : array) : M unit :=
  fun h =>
    if Nat.ltb r (List.length h)
    then (Ok tt, list_set r v h)
    else (Err TypeError, h).

(** [pos[:,k:k+1]]: a view of one column; it has no buffer of its own. *)
Inductive axis : Type := AxisX | AxisY | AxisZ.

Record view : Type := View { base : ref; column : axis }.

Definition read_view (w : view) : M (list R) :=
  a <- load_arr3 (base w) ;;
  mret (match column w with
        | AxisX => col_x a
        | AxisY => col_y a
        | AxisZ => col_z a
        end).

(** [r[r>0] = r[r>0]**(-1.5)]: the right-hand side is read from the
    array, the mask is read from it again, and the array is written. *)
Definition masked_pow_inplace (r : ref) : M unit :=
  m <- load_sq r ;;
  let vals := map pow_m15 (select (rows m) (mask_gt0 (rows m))) in
  m' <- load_sq r ;;
  let mask := mask_gt0 (rows m') in
  m'' <- load_sq r ;;
  overwrite r (Sq (Mat (ncols m'') (assign (rows m'') mask vals))).

Definition weighted_st (G : R) (d inv_r3 mass : ref) : M ref :=
  dm <- load_sq d ;;
  im <- load_sq inv_r3 ;;
  mv <- load_col mass ;;
  c <- lift (weighted G dm im mv) ;;
  alloc (Col c).

Definition calc_acc_st (pos mass : ref) (G softening : R) : M ref :=
  let x := View pos AxisX in
  let y := View pos AxisY in
  let z := View pos AxisZ in
  xv <- read_view x ;;
  dx <- alloc (Sq (outer_diff xv)) ;;
  yv <- read_view y ;;
  dy <- alloc (Sq (outer_diff yv)) ;;
  zv <- read_view z ;;
  dz <- alloc (Sq (outer_diff zv)) ;;
  dxm <- load_sq dx ;;
  dym <- load_sq dy ;;
  dzm <- load_sq dz ;;
  inv_r3 <- alloc (Sq (soft_dist2 dxm dym dzm softening)) ;;
  _ <- masked_pow_inplace inv_r3 ;;
  ax <- weighted_st G dx inv_r3 mass ;;
  ay <- weighted_st G dy inv_r3 mass ;;
  az <- weighted_st G dz inv_r3 mass ;;
  axv <- load_col ax ;;
  ayv <- load_col ay ;;
  azv <- load_col az ;;
  a <- lift (hstack3 axv ayv azv) ;;
  alloc (Arr3 a).

(** ** The integrator: [main] from its initial conditions on

    [main] draws its initial conditions and fixes its parameters; [run] is
    [main] from line 63 on, with [pos], [vel], [mass] and the parameters as
    arguments.  The calls to matplotlib are recorded, in order, in a log. *)

Inductive plt_event : Type :=
| PltFigure
| PltGridSpec
| PltSubplot
| PltSca
| PltCla
| PltScatterTrail (xx yy : list (list R))
| PltScatterBodies (xs ys : list R)
| AxSetLim
| AxSetAspect
| AxSetXticks
| AxSetYticks
| PltSavefig (path : String.string)
| PltShow.

(** [a * k] and [a / k] for an N x 3 array and a scalar. *)
Definition arr_mul (a : list vec3) (k : R) : list vec3 :=
  map (fun v => V3 (vx v * k) (vy v * k) (vz v * k)) a.

Definition arr_div (a : list vec3) (k : R) : list vec3 :=
  map (fun v => V3 (vx v / k) (vy v / k) (vz v / k)) a.

(** [a += b] on N x 3 arrays: [b] has the shape of [a], or its single row
    is broadcast to every row of [a]; NumPy raises otherwise. *)
Definition iadd (a b : list vec3) : result (list vec3) :=
  if Nat.eqb (List.length b) (List.length a)
  then Ok (zip_with vplus a b)
  else match b with
       | [b0] => Ok (map (fun v => vplus v b0) a)
       | _ => Err ValueError
       end.

(** [pos_save[:,:,k] = pos]: [pos_save] is kept as the list of its
    snapshots [pos_save[:,:,0]], [pos_save[:,:,1]], ...; the values of
    [pos] are copied into snapshot [k].  ([pos] keeps the shape the
    snapshots were allocated with, as it is only updated in place.) *)
Definition save_at (k : nat) (pos : list vec3) (pos_save : list (list vec3))
  : result (list (list vec3)) :=
  if Nat.ltb k (List.length pos_save)
  then Ok (list_set k pos pos_save)
  else Err IndexError.

(** [pos_save[:,c,lo:hi]] for [hi] within the saved range: one row per
    body. *)
Definition trail (c : vec3 -> R) (n : nat) (pos_save : list (list vec3))
  (lo hi : nat) : list (list R) :=
  map (fun b => map (fun k => c (nth b (nth k pos_save []) vzero))
                 (seq lo (hi - lo)))
    (seq 0 n).

(** [str(i)] for a non-negative integer. *)
Definition str (i : nat) : String.string :=
  DecimalString.NilEmpty.string_of_uint (Nat.to_uint i).

(** Lines 103-113: one frame. *)
Definition frame (i : nat) (pos : list vec3) (pos_save : list (list vec3))
  : list plt_event :=
  let xx := trail vx (List.length pos) pos_save (i - 50) (i + 1) in
  let yy := trail vy (List.length pos) pos_save (i - 50) (i + 1) in
  [ PltSca; PltCla;
    PltScatterTrail xx yy;
    PltScatterBodies (col_x pos) (col_y pos);
    AxSetLim; AxSetAspect; AxSetXticks; AxSetYticks;
    PltSavefig
      (String.append "images/"%string (String.append (str i) ".png"%string)) ].

(** The variables of [main] that the loop updates. *)
Record sim : Type := Sim {
  pos : list vec3;
  vel : list vec3;
  acc : list vec3;
  t : R;
  pos_save : list (list vec3);
  plt_log : list plt_event
}.

(** The body of the loop, lines 81-113, at iteration [i]. *)
Definition step (mass : list R) (G softening dt : R) (plotRealTime : bool)
  (Nt : nat) (i : nat) (s : sim) : result sim :=
  let* vel1 := iadd (vel s) (arr_div (arr_mul (acc s) dt) 2) in
  let* pos1 := iadd (pos s) (arr_mul vel1 dt) in
  let* acc1 := calc_acc pos1 mass G softening in
  let* vel2 := iadd vel1 (arr_div (arr_mul acc1 dt) 2) in
  let t1 := t s + dt in
  let* save1 := save_at (i + 1) pos1 (pos_save s) in
  let log1 :=
    if plotRealTime || Nat.eqb i (Nt - 1)
    then plt_log s ++ frame i pos1 save1
    else plt_log s in
  Ok (Sim pos1 vel2 acc1 t1 save1 log1).

(** [for i in range(Nt)] *)
Fixpoint loop (body : nat -> sim -> result sim) (range : list nat) (s : sim)
  : result sim :=
  match range with
  | [] => Ok s
  | i :: range' => let* s' := body i s in loop body range' s'
  end.

(** [np.ceil] *)
Definition ceil (r : R) : Z := (- Int_part (- r))%Z.

(** [Nt = int(np.ceil(tEnd/dt))] *)
Definition steps (tEnd dt : R) : result Z :=
  if Req_dec_T dt 0 then Err ZeroDivisionError else Ok (ceil (tEnd / dt)).

(** [np.zeros((N,3,Nt+1))] followed by [pos_save[:,:,0] = pos] *)
Definition init_save (pos : list vec3) (Nt : Z) : result (list (list vec3)) :=
  if (Nt + 1 <? 0)%Z then Err ValueError
  else save_at 0 pos
         (repeat (repeat vzero (List.length pos)) (Z.to_nat (Nt + 1))).

(** [np.arange(Nt+1)*dt] *)
Definition sample_times (Nt : nat) (dt : R) : list R :=
  map (fun i => INR i * dt) (seq 0 (Nt + 1)).

(** What [main] holds when the loop is over. *)
Record outcome : Type := Outcome {
  final : sim;
  t_all : list R;
  n_steps : nat
}.

Definition run (pos0 vel0 : list vec3) (mass : list R)
  (G softening dt tEnd : R) (plotRealTime : bool) : result outcome :=
  let* acc0 := calc_acc pos0 mass G softening in
  let* NtZ := steps tEnd dt in
  let* save0 := init_save pos0 NtZ in
  let Nt := Z.to_nat NtZ in
  let times := sample_times Nt dt in
  let log0 := [PltFigure; PltGridSpec; PltSubplot] in
  let* s := loop (step mass G softening dt plotRealTime Nt) (seq 0 Nt)
              (Sim pos0 vel0 acc0 0 save0 log0) in
  Ok (Outcome (Sim (pos s) (vel s) (acc s) (t s) (pos_save s)
                 (plt_log s ++ [PltShow]))
        times Nt).

(** ** The formulas of the specification *)

(** [|r|²] *)
Definition norm2 (r : vec3) : R := vx r ^ 2 + vy r ^ 2 + vz r ^ 2.

(** [r · k] for a vector [r] and a scalar [k]. *)
Definition vtimes (r : vec3) (k : R) : vec3 :=
  V3 (vx r * k) (vy r * k) (vz r * k).

Definition vsum (l : list vec3) : vec3 := fold_right vplus vzero l.

(** [inv_r3 = (|r_ij|² + ε²)^(−3/2)] when [|r_ij|² + ε² > 0], else 0, with
    [r_ij = pos_j − pos_i]. *)
Definition spec_inv_r3 (eps : R) (pi pj : vec3) : R :=
  let s := norm2 (vminus pj pi) + eps ^ 2 in
  if Rlt_dec 0 s then Rpower s (- (3 / 2)) else 0.

(** The bodies other than [i], in their order. *)
Definition others (n i : nat) : list nat :=
  filter (fun j => negb (Nat.eqb j i)) (seq 0 n).

(** [(r_ij · inv_r3(i,j)) · mass_j]: what body [j] contributes to body [i]. *)
Definition spec_term (eps : R) (pos : list vec3) (mass : list R) (i j : nat)
  : vec3 :=
  let pi := nth i pos vzero in
  let pj := nth j pos vzero in
  vtimes (vtimes (vminus pj pi) (spec_inv_r3 eps pi pj)) (nth j mass 0).

(** [G · Σ_j (r_ij · inv_r3(i,j)) · mass_j], summed over the [j] of a list. *)
Definition acc_over (G eps : R) (pos : list vec3) (mass : list R) (i : nat)
  (js : list nat) : vec3 :=
  vscale G (vsum (map (spec_term eps pos mass i) js)).

(** [a_i = G · Σ_j (r_ij · inv_r3(i,j)) · mass_j], summed over [j ≠ i]. *)
Definition spec_acc (G eps : R) (pos : list vec3) (mass : list R) (i : nat)
  : vec3 :=
  acc_over G eps pos mass i (others (length pos) i).

(** The bodies other than [i] and [j]. *)
Definition others2 (n i j : nat) : list nat :=
  filter (fun k => negb (Nat.eqb k i) && negb (Nat.eqb k j)) (seq 0 n).

(** [Σ_i mass_i · a_i] *)
Definition momentum_rate (mass : list R) (a : list vec3) : vec3 :=
  vsum (zip_with vscale mass a).

(** The physical state and the history of the specification's integrator. *)
Record phys : Type := Phys {
  positions : list vec3;
  velocities : list vec3;
  accelerations : list vec3;
  time : R;
  history : list (list vec3)
}.

(** [v += a · h], row by row. *)
Definition kick (v a : list vec3) (h : R) : list vec3 :=
  zip_with (fun r b => vplus r (vtimes b h)) v a.

(** The per-step transition of the specification, steps 1 to 6, for a
    given force kernel. *)
Definition spec_step (kernel : list vec3 -> result (list vec3)) (dt : R)
  (s : phys) : result phys :=
  let vel1 := kick (velocities s) (accelerations s) (dt / 2) in
  let pos1 := kick (positions s) vel1 dt in
  let* acc1 := kernel pos1 in
  let vel2 := kick vel1 acc1 (dt / 2) in
  let t1 := time s + dt in
  Ok (Phys pos1 vel2 acc1 t1 (history s ++ [pos1])).

(** The state of the specification held by the variables of [main] when
    [k] iterations are done: the history is the first [k+1] snapshots. *)
Definition phys_of (k : nat) (s : sim) : phys :=
  Phys (pos s) (vel s) (acc s) (t s) (firstn (k + 1) (pos_save s)).

(** The state of [run] when [k] iterations are done. *)
Definition after (mass : list R) (G softening dt : R) (plotRealTime : bool)
  (Nt : nat) (s0 : sim) (k : nat) : result sim :=
  loop (step mass G softening dt plotRealTime Nt) (seq 0 k) s0.

(** The paths of the files written, in order. *)
Definition saved_paths (log : list plt_event) : list String.string :=
  flat_map (fun e => match e with PltSavefig p => [p] | _ => [] end) log.

(** ** The kernel entry by entry *)

Definition Rsum (l : list R) : R := fold_right Rplus 0 l.

(** Entry (p, q) of [dx**2 + dy**2 + dz**2 + softening**2]. *)
Definition dist2 (softening : R) (p q : vec3) : R :=
  (vx q - vx p) ^ 2 + (vy q - vy p) ^ 2 + (vz q - vz p) ^ 2 + softening ^ 2.

(** Entry (p, q) of [inv_r3] after the masked assignment. *)
Definition weight (softening : R) (p q : vec3) : R :=
  if gt0 (dist2 softening p q)
  then pow_m15 (dist2 softening p q)
  else dist2 softening p q.

(** Row [p] of [G * (d * inv_r3) @ mass] for the coordinate [c]. *)
Definition pull (c : vec3 -> R) (G softening : R) (pos : list vec3)
  (mass : list R) (p : vec3) : R :=
  dot (map (fun q => G * ((c q - c p) * weight softening p q)) pos) mass.

Definition pull3 (G softening : R) (pos : list vec3) (mass : list R)
  (p : vec3) : vec3 :=
  V3 (pull vx G softening pos mass p) (pull vy G softening pos mass p)
    (pull vz G softening pos mass p).

(** The four arrays [calc_acc] has bound when it reaches line 31. *)
Definition separations (pos : list vec3) (softening : R) : list array :=
  let dx := outer_diff (col_x pos) in
  let dy := outer_diff (col_y pos) in
  let dz := outer_diff (col_z pos) in
  [Sq dx; Sq dy; Sq dz; Sq (masked_pow (soft_dist2 dx dy dz softening))].

(** The arrays the kernel has bound when it returns. *)
Definition allocated (pos : list vec3) (mass : list R) (G softening : R)
  : list array :=
  separations pos softening
  ++ [Col (map (pull vx G softening pos mass) pos);
      Col (map (pull vy G softening pos mass) pos);
      Col (map (pull vz G softening pos mass) pos);
      Arr3 (map (pull3 G softening pos mass) pos)].

(** A computation keeps the first [n] cells of the store, and its result
    satisfies [Q]. *)
Definition preserves {A : Type} (n : nat) (c : M A) (Q : A -> Prop) : Prop :=
  forall h, (n <= length h)%nat ->
    firstn n (snd (c h)) = firstn n h
    /\ (n <= length (snd (c h)))%nat
    /\ match fst (c h) with Ok a => Q a | Err _ => True end.

(** The shapes the loop keeps: [N] bodies, [L] snapshots. *)
Definition shaped (N L : nat) (s : sim) : Prop :=
  length (pos s) = N /\ length (vel s) = N /\ length (acc s) = N
  /\ length (pos_save s) = L.

(** The variables of the simulation, without the log of the plots. *)
Definition core (s : sim)
  : list vec3 * list vec3 * list vec3 * R * list (list vec3) :=
  (pos s, vel s, acc s, t s, pos_save s).

(** The path of the frame saved at iteration [i]. *)
Definition frame_path (i : nat) : String.string :=
  String.append "images/"%string (String.append (str i) ".png"%string).

(** The iterations at which a frame is rendered. *)
Definition rendered (plotRealTime : bool) (Nt : nat) : list nat :=
  filter (fun i => plotRealTime || Nat.eqb i (Nt - 1)) (seq 0 Nt).

(** The state the loop starts from, line 63 to line 77. *)
Definition start (pos0 vel0 acc0 : list vec3) (save0 : list (list vec3))
  : sim :=
  Sim pos0 vel0 acc0 0 save0 [PltFigure; PltGridSpec; PltSubplot].

(** Two results that raise the same exception, or hold states with the
    same variables of the simulation. *)
Definition agree (r r' : result sim) : Prop :=
  match r, r' with
  | Ok a, Ok a' => core a = core a'
  | Err e, Err e' => e = e'
  | _, _ => False
  end.

(** [pos_save] when the loop starts: zeros, and [pos] in snapshot 0. *)
Definition save0 (pos0 : list vec3) (Nt : nat) : list (list vec3) :=
  list_set 0 pos0 (repeat (repeat vzero (length pos0)) (Nt + 1)).

(** ** The initial conditions of [main], lines 55-60 *)


(** [mass * vel] for an M x 1 column and an N x 3 array: row by row when
    M = N; a single mass is broadcast to every row, a single row to every
    mass; NumPy raises otherwise. *)
Definition col_times (mass : list R) (vel : list vec3) : result (list vec3) :=
  if Nat.eqb (length mass) (length vel)
  then Ok (zip_with vscale mass vel)
  else match mass, vel with
       | [m], _ => Ok (map (vscale m) vel)
       | _, [v] => Ok (map (fun m => vscale m v) mass)
       | _, _ => Err ValueError
       end.

(** [np.mean(a,0)] of a K x 3 array and [np.mean(c)] of a column: the sum
    over the count.  On an empty array NumPy warns and gives [nan], which
    is no real number: [None]. *)
Definition mean_rows (a : list vec3) : option vec3 :=
  match a with
  | [] => None
  | _ :: _ =>
      Some (V3 (vx (vsum a) / INR (length a)) (vy (vsum a) / INR (length a))
              (vz (vsum a) / INR (length a)))
  end.

Definition mean_col (c : list R) : option R :=
  match c with
  | [] => None
  | _ :: _ => Some (Rsum c / INR (length c))
  end.

(** [np.mean(mass * vel,0) / np.mean(mass)]: dividing by zero gives [inf]
    or [nan], no real vector. *)
Definition com_velocity (mass : list R) (vel : list vec3)
  : result (option vec3) :=
  let* mv := col_times mass vel in
  Ok (match mean_rows mv, mean_col mass with
      | Some p, Some mbar =>
          if Req_dec_T mbar 0 then None
          else Some (V3 (vx p / mbar) (vy p / mbar) (vz p / mbar))
      | _, _ => None
      end).

(** [vel -= np.mean(mass * vel,0) / np.mean(mass)], line 60: the 3-vector
    is subtracted from every row; [None] when the rows are no longer real
    numbers. *)
Definition to_com_frame (mass : list R) (vel : list vec3)
  : result (option (list vec3)) :=
  let* V := com_velocity mass vel in
  Ok (match vel, V with
      | [], _ => Some []
      | _ :: _, Some V => Some (map (fun v => vminus v V) vel)
      | _ :: _, None => None
      end).


(** ** Arrays: elementwise operations and masks *)

Lemma zip_with_map_same {A B C D : Type} (f : B -> C -> D) (g : A -> B)
  (h : A -> C) (l : list A) :
  zip_with f (map g l) (map h l) = map (fun a => f (g a) (h a)) l.
Proof.
  induction l as [|a l IH]; simpl; [reflexivity | now rewrite IH].
Qed.

Lemma zip_with_length {A B C : Type} (f : A -> B -> C) (l : list A)
  (l' : list B) :
  length l' = length l -> length (zip_with f l l') = length l.
Proof.
  revert l'; induction l as [|a l IH]; intros [|b l'] H; simpl in *;
    try discriminate; auto.
Qed.

Lemma gt0_true (s : R) : gt0 s = true <-> 0 < s.
Proof.
  unfold gt0; destruct (Rlt_dec 0 s); split; intros; auto; discriminate.
Qed.

(** The entries a mask selects are those at which it holds. *)
Lemma select_row_sound (r : list R) :
  Forall (fun s => 0 < s) (select_row r (map gt0 r)).
Proof.
  induction r as [|s r IH]; simpl; [constructor|].
  destruct (gt0 s) eqn:E; [constructor; [now apply gt0_true | exact IH] | exact IH].
Qed.

Lemma select_sound (m : list (list R)) :
  Forall (fun s => 0 < s) (select m (mask_gt0 m)).
Proof.
  induction m as [|r m IH]; simpl; [constructor|].
  apply Forall_app; split; [apply select_row_sound | exact IH].
Qed.

(** Reading the selection, mapping it and assigning it back is a map over
    the selected entries. *)
Lemma assign_row_select (f : R -> R) (r rest : list R) :
  assign_row r (map gt0 r) (map f (select_row r (map gt0 r)) ++ rest)
  = (map (fun s => if gt0 s then f s else s) r, rest).
Proof.
  induction r as [|s r IH]; simpl; [reflexivity|].
  destruct (gt0 s); simpl; now rewrite IH.
Qed.

Lemma assign_select (f : R -> R) (m : list (list R)) (rest : list R) :
  assign m (mask_gt0 m) (map f (select m (mask_gt0 m)) ++ rest)
  = map (map (fun s => if gt0 s then f s else s)) m.
Proof.
  revert rest; induction m as [|r m IH]; intros rest; simpl; [reflexivity|].
  rewrite map_app, <- app_assoc, assign_row_select.
  now rewrite IH.
Qed.

Lemma masked_pow_rows (m : mat) :
  rows (masked_pow m)
  = map (map (fun s => if gt0 s then pow_m15 s else s)) (rows m).
Proof.
  unfold masked_pow; simpl.
  rewrite <- (app_nil_r (map pow_m15 _)).
  apply assign_select.
Qed.

(** ** The kernel entry by entry *)

Lemma soft_dist2_rows (pos : list vec3) (softening : R) :
  rows (soft_dist2 (outer_diff (col_x pos)) (outer_diff (col_y pos))
          (outer_diff (col_z pos)) softening)
  = map (fun p => map (fun q => dist2 softening p q) pos) pos.
Proof.
  unfold soft_dist2, mat_map2, mat_map, outer_diff, col_x, col_y, col_z; simpl.
  rewrite !map_map.
  rewrite (zip_with_map_same (zip_with Rplus)).
  rewrite (zip_with_map_same (zip_with Rplus)).
  rewrite map_map.
  apply map_ext; intros p.
  rewrite !map_map.
  rewrite (zip_with_map_same Rplus), (zip_with_map_same Rplus), map_map.
  reflexivity.
Qed.

Lemma inv_r3_rows (pos : list vec3) (softening : R) :
  rows (masked_pow
          (soft_dist2 (outer_diff (col_x pos)) (outer_diff (col_y pos))
             (outer_diff (col_z pos)) softening))
  = map (fun p => map (fun q => weight softening p q) pos) pos.
Proof.
  rewrite masked_pow_rows, soft_dist2_rows, map_map.
  apply map_ext; intros p.
  now rewrite map_map.
Qed.

(** [G * (d * inv_r3)] for the separations [d] of the coordinate [c]. *)
Lemma scaled_rows (c : vec3 -> R) (G softening : R) (pos : list vec3) (w : mat) :
  rows w = map (fun p => map (fun q => weight softening p q) pos) pos ->
  rows (mat_map (fun s => G * s) (mat_map2 Rmult (outer_diff (map c pos)) w))
  = map (fun p => map (fun q => G * ((c q - c p) * weight softening p q)) pos)
      pos.
Proof.
  intros Hw.
  unfold mat_map, mat_map2, outer_diff; simpl.
  rewrite Hw, map_map, (zip_with_map_same (zip_with Rmult)), map_map.
  apply map_ext; intros p.
  rewrite map_map, (zip_with_map_same Rmult), map_map.
  reflexivity.
Qed.

Lemma weighted_ok (c : vec3 -> R) (G softening : R) (pos : list vec3)
  (mass : list R) :
  length mass = length pos ->
  weighted G (outer_diff (map c pos))
    (masked_pow
       (soft_dist2 (outer_diff (col_x pos)) (outer_diff (col_y pos))
          (outer_diff (col_z pos)) softening)) mass
  = Ok (map (pull c G softening pos mass) pos).
Proof.
  intros Hl.
  unfold weighted, matmul_col.
  rewrite (scaled_rows c G softening pos _ (inv_r3_rows pos softening)).
  simpl ncols. rewrite length_map, Hl, Nat.eqb_refl, map_map.
  reflexivity.
Qed.

Lemma weighted_mismatch (c : vec3 -> R) (G : R) (pos : list vec3) (w : mat)
  (mass : list R) :
  length mass <> length pos ->
  weighted G (outer_diff (map c pos)) w mass = Err ValueError.
Proof.
  intros Hl.
  unfold weighted, matmul_col; simpl ncols.
  rewrite length_map.
  destruct (Nat.eqb_spec (length pos) (length mass)); [congruence | reflexivity].
Qed.

Lemma hstack3_maps {A : Type} (f g h : A -> R) (l : list A) :
  hstack3 (map f l) (map g l) (map h l)
  = Ok (map (fun a => V3 (f a) (g a) (h a)) l).
Proof.
  unfold hstack3.
  rewrite !length_map, Nat.eqb_refl; simpl.
  f_equal.
  induction l as [|a l IH]; simpl; [reflexivity | now rewrite IH].
Qed.

(** With matching shapes the kernel returns, row by row, [pull3]. *)
Lemma calc_acc_rows (pos : list vec3) (mass : list R) (G softening : R) :
  length mass = length pos ->
  calc_acc pos mass G softening = Ok (map (pull3 G softening pos mass) pos).
Proof.
  intros Hl. unfold calc_acc.
  rewrite (weighted_ok vx), (weighted_ok vy), (weighted_ok vz) by exact Hl.
  simpl rbind.
  now rewrite hstack3_maps.
Qed.

(** With mismatched shapes the first matrix product raises. *)
Lemma calc_acc_mismatch (pos : list vec3) (mass : list R) (G softening : R) :
  length mass <> length pos ->
  calc_acc pos mass G softening = Err ValueError.
Proof.
  intros Hl. unfold calc_acc.
  now rewrite (weighted_mismatch vx).
Qed.

(** ** Sums *)

Lemma Rsum_scal (A : Type) (k : R) (g : A -> R) (l : list A) :
  Rsum (map (fun a => k * g a) l) = k * Rsum (map g l).
Proof.
  induction l as [|a l IH]; simpl; [ring | rewrite IH; ring].
Qed.

Lemma Rsum_plus (A : Type) (f g : A -> R) (l : list A) :
  Rsum (map (fun a => f a + g a) l) = Rsum (map f l) + Rsum (map g l).
Proof.
  induction l as [|a l IH]; simpl; [ring | rewrite IH; ring].
Qed.

Lemma Rsum_zero (A : Type) (f : A -> R) (l : list A) :
  (forall a, In a l -> f a = 0) -> Rsum (map f l) = 0.
Proof.
  induction l as [|a l IH]; simpl; intros H; [reflexivity|].
  rewrite (H a), IH by auto. ring.
Qed.

Lemma Rsum_ext (A : Type) (f g : A -> R) (l : list A) :
  (forall a, In a l -> f a = g a) -> Rsum (map f l) = Rsum (map g l).
Proof.
  intros H. f_equal. apply map_ext_in. exact H.
Qed.

(** Terms that vanish may be left out of a sum. *)
Lemma Rsum_filter (A : Type) (keep : A -> bool) (g : A -> R) (l : list A) :
  (forall a, In a l -> keep a = false -> g a = 0) ->
  Rsum (map g (filter keep l)) = Rsum (map g l).
Proof.
  induction l as [|a l IH]; simpl; intros H; [reflexivity|].
  destruct (keep a) eqn:E; simpl.
  - rewrite IH by auto. reflexivity.
  - rewrite IH, (H a) by auto. ring.
Qed.

(** A double sum of an antisymmetric term vanishes. *)
Lemma Rsum_antisym (A : Type) (F : A -> A -> R) (l : list A) :
  (forall a b, F a b = - F b a) ->
  Rsum (map (fun a => Rsum (map (fun b => F a b) l)) l) = 0.
Proof.
  intros Hanti.
  assert (Hdiag : forall a, F a a = 0) by (intros a; specialize (Hanti a a); lra).
  induction l as [|a l IH]; simpl; [reflexivity|].
  rewrite Hdiag, Rsum_plus, IH.
  assert (H : Rsum (map (fun b => F a b) l)
              + Rsum (map (fun a0 => F a0 a) l) = 0).
  { rewrite <- Rsum_plus. apply Rsum_zero. intros b _. rewrite (Hanti a b). ring. }
  lra.
Qed.

Lemma dot_combine (A : Type) (f : A -> R) (l : list A) (v : list R) :
  dot (map f l) v = Rsum (map (fun am => f (fst am) * snd am) (combine l v)).
Proof.
  revert v; induction l as [|a l IH]; intros [|b v]; simpl; try reflexivity.
  now rewrite IH.
Qed.

Lemma dot_indexed (f : vec3 -> R) :
  forall (l : list vec3) (v : list R),
    length v = length l ->
    dot (map f l) v
    = Rsum (map (fun j => f (nth j l vzero) * nth j v 0) (seq 0 (length l))).
Proof.
  induction l as [|a l IH]; intros [|b v] H; simpl in *; try discriminate;
    [reflexivity|].
  rewrite IH by lia.
  rewrite <- seq_shift, map_map. reflexivity.
Qed.

Lemma vsum_x (l : list vec3) : vx (vsum l) = Rsum (map vx l).
Proof. induction l as [|a l IH]; simpl; [reflexivity | now rewrite IH]. Qed.

Lemma vsum_y (l : list vec3) : vy (vsum l) = Rsum (map vy l).
Proof. induction l as [|a l IH]; simpl; [reflexivity | now rewrite IH]. Qed.

Lemma vsum_z (l : list vec3) : vz (vsum l) = Rsum (map vz l).
Proof. induction l as [|a l IH]; simpl; [reflexivity | now rewrite IH]. Qed.

Lemma vec3_eq (a b : vec3) :
  vx a = vx b -> vy a = vy b -> vz a = vz b -> a = b.
Proof. destruct a, b; simpl; intros; subst; reflexivity. Qed.

(** ** The inverse-cube factor *)

Lemma dist2_nonneg (softening : R) (p q : vec3) : 0 <= dist2 softening p q.
Proof.
  unfold dist2.
  pose proof (pow2_ge_0 (vx q - vx p)); pose proof (pow2_ge_0 (vy q - vy p)).
  pose proof (pow2_ge_0 (vz q - vz p)); pose proof (pow2_ge_0 softening).
  lra.
Qed.

Lemma dist2_sym (softening : R) (p q : vec3) :
  dist2 softening p q = dist2 softening q p.
Proof. unfold dist2; ring. Qed.

Lemma weight_sym (softening : R) (p q : vec3) :
  weight softening p q = weight softening q p.
Proof. unfold weight. now rewrite (dist2_sym softening p q). Qed.

(** The factor the code computes is the one the specification defines:
    where the mask does not hold the entry is left as it is, and it is 0. *)
Lemma weight_spec (softening : R) (p q : vec3) :
  weight softening p q = spec_inv_r3 softening p q.
Proof.
  unfold weight, spec_inv_r3, gt0, pow_m15.
  change (norm2 (vminus q p) + softening ^ 2) with (dist2 softening p q).
  cbv zeta.
  destruct (Rlt_dec 0 (dist2 softening p q)) as [Hpos|Hnpos].
  - f_equal. lra.
  - pose proof (dist2_nonneg softening p q). lra.
Qed.

(** At coinciding positions without softening the factor is 0. *)
Lemma weight_coincident (p : vec3) : weight 0 p p = 0.
Proof.
  unfold weight, gt0.
  assert (H : dist2 0 p p = 0) by (unfold dist2; ring).
  rewrite H. destruct (Rlt_dec 0 0); [lra | reflexivity].
Qed.

Lemma pow_m15_4 : pow_m15 4 = / 8.
Proof.
  unfold pow_m15.
  replace (-1.5) with (- (1 + / 2)) by lra.
  rewrite Rpower_Ropp, Rpower_plus, Rpower_1, Rpower_sqrt by lra.
  replace 4 with (2 * 2) at 2 by ring.
  rewrite sqrt_square by lra.
  f_equal. ring.
Qed.

(** ** The kernel and the formula of the specification *)

Section KernelSums.

Variables (G softening : R) (pos : list vec3) (mass : list R).
Hypothesis shapes : length mass = length pos.

(** A row of the kernel is the sum over all bodies; the bodies at the
    position of body [i] contribute nothing and may be left out. *)
Lemma pull_selected (c : vec3 -> R) (i : nat) (keep : nat -> bool) :
  (forall j, (j < length pos)%nat -> keep j = false ->
             nth j pos vzero = nth i pos vzero) ->
  pull c G softening pos mass (nth i pos vzero)
  = G * Rsum (map (fun j =>
                     (c (nth j pos vzero) - c (nth i pos vzero))
                     * spec_inv_r3 softening (nth i pos vzero) (nth j pos vzero)
                     * nth j mass 0)
                (filter keep (seq 0 (length pos)))).
Proof.
  intros Hkeep. unfold pull.
  rewrite dot_indexed by exact shapes.
  rewrite Rsum_filter.
  - rewrite <- Rsum_scal. apply Rsum_ext. intros j _.
    rewrite weight_spec. ring.
  - intros j Hj Hk. apply in_seq in Hj.
    rewrite (Hkeep j) by (lia || exact Hk). ring.
Qed.

Lemma pull3_selected (i : nat) (keep : nat -> bool) :
  (forall j, (j < length pos)%nat -> keep j = false ->
             nth j pos vzero = nth i pos vzero) ->
  pull3 G softening pos mass (nth i pos vzero)
  = acc_over G softening pos mass i (filter keep (seq 0 (length pos))).
Proof.
  intros Hkeep. unfold pull3, acc_over.
  apply vec3_eq; simpl;
    [ rewrite vsum_x | rewrite vsum_y | rewrite vsum_z ];
    rewrite map_map, (pull_selected _ i keep Hkeep); reflexivity.
Qed.

Lemma calc_acc_nth (i : nat) :
  (i < length pos)%nat ->
  nth i (map (pull3 G softening pos mass) pos) vzero
  = pull3 G softening pos mass (nth i pos vzero).
Proof.
  intros Hi.
  rewrite (nth_indep _ vzero (pull3 G softening pos mass vzero))
    by (rewrite length_map; exact Hi).
  apply map_nth.
Qed.

End KernelSums.

(** C1. For N >= 1 bodies, positions of shape N x 3 and masses of shape
    N x 1, [calc_acc] returns an N x 3 array whose row [i] is
    [G · Σ_{j ≠ i} (r_ij · inv_r3(i,j)) · mass_j] with [r_ij = pos_j − pos_i]
    and [inv_r3 = (|r_ij|² + ε²)^(−3/2)] where that base is positive and 0
    otherwise; the rows are in the order of the bodies. *)
Theorem calc_acc_spec (pos : list vec3) (mass : list R) (G softening : R) :
  (1 <= length pos)%nat ->
  length mass = length pos ->
  exists a,
    calc_acc pos mass G softening = Ok a
    /\ length a = length pos
    /\ forall i, (i < length pos)%nat ->
                 nth i a vzero = spec_acc G softening pos mass i.
Proof.
  intros _ Hl.
  exists (map (pull3 G softening pos mass) pos).
  split; [now apply calc_acc_rows|].
  split; [apply length_map|].
  intros i Hi.
  rewrite calc_acc_nth by exact Hi.
  unfold spec_acc, others.
  apply pull3_selected; [exact Hl|].
  intros j _ Hj.
  apply negb_false_iff, Nat.eqb_eq in Hj. now subst.
Qed.

Lemma calc_acc_spec_witness :
  exists a,
    calc_acc [V3 0 0 0; V3 3 4 0] [1; 2] 1 0 = Ok a
    /\ length a = 2%nat
    /\ forall i, (i < 2)%nat ->
                 nth i a vzero = spec_acc 1 0 [V3 0 0 0; V3 3 4 0] [1; 2] i.
Proof.
  apply (calc_acc_spec [V3 0 0 0; V3 3 4 0] [1; 2] 1 0); simpl; lia.
Defined.

(** One coordinate of [Σ_i mass_i · a_i]: the term of the pair (i, j) is
    the opposite of the term of the pair (j, i). *)
Lemma momentum_component (c : vec3 -> R) (G softening : R) (pos : list vec3)
  (mass : list R) :
  Rsum (map (fun pm => snd pm * pull c G softening pos mass (fst pm))
          (combine pos mass)) = 0.
Proof.
  unfold pull.
  rewrite (Rsum_ext _ _
             (fun pm =>
                Rsum (map (fun qm =>
                             snd pm
                             * (G * ((c (fst qm) - c (fst pm))
                                     * weight softening (fst pm) (fst qm))
                                * snd qm))
                        (combine pos mass)))).
  - apply (Rsum_antisym _
             (fun pm qm =>
                snd pm * (G * ((c (fst qm) - c (fst pm))
                               * weight softening (fst pm) (fst qm))
                          * snd qm))).
    intros pm qm. rewrite (weight_sym softening (fst qm) (fst pm)). ring.
  - intros pm _. rewrite dot_combine, <- Rsum_scal. reflexivity.
Qed.

Lemma zip_with_map_combine {A B C : Type} (f : B -> C -> C) (F : A -> C) :
  forall (l : list A) (v : list B),
    zip_with f v (map F l)
    = map (fun am => f (snd am) (F (fst am))) (combine l v).
Proof.
  induction l as [|a l IH]; intros [|b v]; simpl; try reflexivity.
  now rewrite IH.
Qed.

(** C4. The accelerations returned by [calc_acc] satisfy
    [Σ_i mass_i · a_i = 0] (the zero 3-vector) in exact arithmetic: the
    pairwise terms are equal and opposite. *)
Theorem momentum_rate_zero (pos : list vec3) (mass : list R) (G softening : R) :
  length mass = length pos ->
  exists a,
    calc_acc pos mass G softening = Ok a /\ momentum_rate mass a = vzero.
Proof.
  intros Hl.
  exists (map (pull3 G softening pos mass) pos).
  split; [now apply calc_acc_rows|].
  unfold momentum_rate.
  rewrite zip_with_map_combine.
  apply vec3_eq; simpl;
    [ rewrite vsum_x | rewrite vsum_y | rewrite vsum_z ];
    rewrite map_map; simpl; apply momentum_component.
Qed.

Lemma momentum_rate_zero_witness :
  exists a,
    calc_acc [V3 0 0 0; V3 3 4 0] [1; 2] 1 0 = Ok a
    /\ momentum_rate [1; 2] a = vzero.
Proof.
  apply (momentum_rate_zero [V3 0 0 0; V3 3 4 0] [1; 2] 1 0); reflexivity.
Defined.

Lemma nth_map_in {A B : Type} (f : A -> B) (l : list A) (i : nat) (d : B)
  (d' : A) :
  (i < length l)%nat -> nth i (map f l) d = f (nth i l d').
Proof.
  intros Hi.
  rewrite (nth_indep _ d (f d')) by (rewrite length_map; exact Hi).
  apply map_nth.
Qed.

Lemma weight_apart :
  weight 0 (V3 (-1) 0 0) (V3 1 0 0) = / 8
  /\ weight 0 (V3 1 0 0) (V3 (-1) 0 0) = / 8.
Proof.
  assert (H : dist2 0 (V3 (-1) 0 0) (V3 1 0 0) = 4) by (unfold dist2; simpl; ring).
  assert (H' : weight 0 (V3 (-1) 0 0) (V3 1 0 0) = / 8).
  { unfold weight, gt0. rewrite H.
    destruct (Rlt_dec 0 4); [apply pow_m15_4 | lra]. }
  split; [exact H' | rewrite weight_sym; exact H'].
Qed.

(** C5. Two bodies of equal mass [m] at (−1,0,0) and (1,0,0), with ε = 0
    and G = 1: one call of [calc_acc] returns [a_0 = (m/4, 0, 0)] and
    [a_1 = (−m/4, 0, 0)]. *)
Theorem two_body_sanity (m : R) :
  calc_acc [V3 (-1) 0 0; V3 1 0 0] [m; m] 1 0
  = Ok [V3 (m / 4) 0 0; V3 (- (m / 4)) 0 0].
Proof.
  rewrite calc_acc_rows by reflexivity.
  destruct weight_apart as [H01 H10].
  unfold pull3, pull. simpl map. simpl dot.
  rewrite !weight_coincident, H01, H10.
  do 2 f_equal; [ | f_equal ]; apply vec3_eq; simpl; lra.
Qed.

(** C6. Two bodies [i] and [j] at identical positions with ε = 0: the
    inverse-cube factor of the pair is 0, the pair contributes nothing to
    the accelerations the kernel returns, and the power with the negative
    exponent is applied to positive entries only, never to zero. *)
Theorem coincident_pair (pos : list vec3) (mass : list R) (G : R) (i j : nat) :
  length mass = length pos ->
  (i < length pos)%nat -> (j < length pos)%nat ->
  nth i pos vzero = nth j pos vzero ->
  let d2 := soft_dist2 (outer_diff (col_x pos)) (outer_diff (col_y pos))
              (outer_diff (col_z pos)) 0 in
  Forall (fun s => 0 < s) (select (rows d2) (mask_gt0 (rows d2)))
  /\ nth j (nth i (rows (masked_pow d2)) []) 0 = 0
  /\ exists a,
      calc_acc pos mass G 0 = Ok a
      /\ nth i a vzero = acc_over G 0 pos mass i (others2 (length pos) i j)
      /\ nth j a vzero = acc_over G 0 pos mass j (others2 (length pos) i j).
Proof.
  intros Hl Hi Hj Hij d2.
  split; [apply select_sound|].
  split.
  - unfold d2. rewrite inv_r3_rows.
    rewrite (nth_map_in _ pos i [] vzero) by exact Hi.
    rewrite (nth_map_in _ pos j 0 vzero) by exact Hj.
    rewrite Hij. apply weight_coincident.
  - exists (map (pull3 G 0 pos mass) pos).
    split; [now apply calc_acc_rows|].
    rewrite !calc_acc_nth by assumption.
    unfold others2.
    split; apply pull3_selected; try exact Hl; intros k _ Hk;
      apply andb_false_iff in Hk;
      destruct Hk as [Hk|Hk]; apply negb_false_iff, Nat.eqb_eq in Hk;
      subst; congruence.
Qed.

Lemma coincident_pair_witness :
  let pos := [V3 1 2 3; V3 1 2 3; V3 0 0 0] in
  let d2 := soft_dist2 (outer_diff (col_x pos)) (outer_diff (col_y pos))
              (outer_diff (col_z pos)) 0 in
  Forall (fun s => 0 < s) (select (rows d2) (mask_gt0 (rows d2)))
  /\ nth 1 (nth 0 (rows (masked_pow d2)) []) 0 = 0
  /\ exists a,
      calc_acc pos [1; 1; 5] 1 0 = Ok a
      /\ nth 0 a vzero = acc_over 1 0 pos [1; 1; 5] 0 (others2 3 0 1)
      /\ nth 1 a vzero = acc_over 1 0 pos [1; 1; 5] 1 (others2 3 0 1).
Proof.
  apply (coincident_pair [V3 1 2 3; V3 1 2 3; V3 0 0 0] [1; 1; 5] 1 0 1);
    simpl; (reflexivity || lia).
Defined.

(** ** Translation *)

Lemma outer_diff_shift (c : R) (x : list R) :
  outer_diff (map (fun r => r + c) x) = outer_diff x.
Proof.
  unfold outer_diff. rewrite length_map. f_equal.
  rewrite map_map. apply map_ext; intros xi.
  rewrite map_map. apply map_ext; intros xj. ring.
Qed.

(** C10. Adding one 3-vector [c] to the position of every body leaves the
    result of [calc_acc] unchanged: the positions enter through the
    differences [pos_j − pos_i] only. *)
Theorem calc_acc_translation (c : vec3) (pos : list vec3) (mass : list R)
  (G softening : R) :
  calc_acc (map (fun p => vplus p c) pos) mass G softening
  = calc_acc pos mass G softening.
Proof.
  unfold calc_acc.
  assert (Hx : col_x (map (fun p => vplus p c) pos)
               = map (fun r => r + vx c) (col_x pos))
    by (unfold col_x; now rewrite !map_map).
  assert (Hy : col_y (map (fun p => vplus p c) pos)
               = map (fun r => r + vy c) (col_y pos))
    by (unfold col_y; now rewrite !map_map).
  assert (Hz : col_z (map (fun p => vplus p c) pos)
               = map (fun r => r + vz c) (col_z pos))
    by (unfold col_z; now rewrite !map_map).
  rewrite Hx, Hy, Hz, !outer_diff_shift.
  reflexivity.
Qed.

(** ** The kernel on the store *)

Lemma alloc_app (v : array) (h l : store) :
  alloc v (h ++ l) = (Ok (length h + length l)%nat, h ++ (l ++ [v])).
Proof. unfold alloc. now rewrite length_app, app_assoc. Qed.

Lemma nth_error_fresh (h l : store) (k : nat) :
  nth_error (h ++ l) (length h + k)%nat = nth_error l k.
Proof.
  rewrite nth_error_app2 by lia. f_equal. lia.
Qed.

Lemma load_old (h l : store) (r : ref) (v : array) :
  nth_error h r = Some v -> load r (h ++ l) = (Ok v, h ++ l).
Proof.
  intros H. unfold load.
  rewrite nth_error_app1 by (apply nth_error_Some; congruence).
  now rewrite H.
Qed.

Lemma load_fresh (h l : store) (k : nat) (v : array) :
  nth_error l k = Some v ->
  load (length h + k)%nat (h ++ l) = (Ok v, h ++ l).
Proof.
  intros H. unfold load. now rewrite nth_error_fresh, H.
Qed.

Lemma list_set_app {A : Type} (h l : list A) (k : nat) (v : A) :
  list_set (length h + k)%nat v (h ++ l) = h ++ list_set k v l.
Proof.
  induction h as [|a h IH]; simpl; [reflexivity | now rewrite IH].
Qed.

Lemma overwrite_fresh (h l : store) (k : nat) (v : array) :
  (k < length l)%nat ->
  overwrite (length h + k)%nat v (h ++ l) = (Ok tt, h ++ list_set k v l).
Proof.
  intros H. unfold overwrite.
  rewrite length_app.
  destruct (Nat.ltb_spec (length h + k) (length h + length l)); [|lia].
  now rewrite list_set_app.
Qed.

Lemma read_view_old (h l : store) (r : ref) (a : list vec3) (c : axis) :
  nth_error h r = Some (Arr3 a) ->
  read_view (View r c) (h ++ l)
  = (Ok (match c with
         | AxisX => col_x a
         | AxisY => col_y a
         | AxisZ => col_z a
         end), h ++ l).
Proof.
  intros H. unfold read_view, load_arr3, mbind; simpl.
  now rewrite (load_old _ _ _ _ H).
Qed.

Lemma load_sq_fresh (h l : store) (k : nat) (m : mat) :
  nth_error l k = Some (Sq m) ->
  load_sq (length h + k)%nat (h ++ l) = (Ok m, h ++ l).
Proof.
  intros H. unfold load_sq, mbind. now rewrite (load_fresh _ _ _ _ H).
Qed.

Lemma load_col_fresh (h l : store) (k : nat) (c : list R) :
  nth_error l k = Some (Col c) ->
  load_col (length h + k)%nat (h ++ l) = (Ok c, h ++ l).
Proof.
  intros H. unfold load_col, mbind. now rewrite (load_fresh _ _ _ _ H).
Qed.

Lemma load_col_old (h l : store) (r : ref) (c : list R) :
  nth_error h r = Some (Col c) -> load_col r (h ++ l) = (Ok c, h ++ l).
Proof.
  intros H. unfold load_col, mbind. now rewrite (load_old _ _ _ _ H).
Qed.

(** The masked assignment overwrites the cell it reads. *)
Lemma masked_pow_inplace_fresh (h l : store) (k : nat) (m : mat) :
  nth_error l k = Some (Sq m) ->
  masked_pow_inplace (length h + k)%nat (h ++ l)
  = (Ok tt, h ++ list_set k (Sq (masked_pow m)) l).
Proof.
  intros H. unfold masked_pow_inplace, mbind.
  do 3 (rewrite (load_sq_fresh _ _ _ _ H); cbv beta iota).
  rewrite overwrite_fresh by (apply nth_error_Some; congruence).
  reflexivity.
Qed.

Lemma weighted_st_fresh (G : R) (h l : store) (kd ki : nat) (mr : ref)
  (d w : mat) (mass : list R) :
  nth_error l kd = Some (Sq d) ->
  nth_error l ki = Some (Sq w) ->
  nth_error h mr = Some (Col mass) ->
  weighted_st G (length h + kd)%nat (length h + ki)%nat mr (h ++ l)
  = match weighted G d w mass with
    | Ok c => (Ok (length h + length l)%nat, h ++ (l ++ [Col c]))
    | Err e => (Err e, h ++ l)
    end.
Proof.
  intros Hd Hi Hm. unfold weighted_st, mbind.
  rewrite (load_sq_fresh _ _ _ _ Hd); cbv beta iota.
  rewrite (load_sq_fresh _ _ _ _ Hi); cbv beta iota.
  rewrite (load_col_old _ _ _ _ Hm); cbv beta iota.
  unfold lift.
  destruct (weighted G d w mass); [apply alloc_app | reflexivity].
Qed.

Tactic Notation "store_step" open_constr(lem) :=
  erewrite lem by (reflexivity || eassumption);
  cbv beta iota; cbn [length app list_set].

(** What a call does to the store, for references to an N x 3 array and to
    a column: line 31 raises when their lengths differ, after the four
    arrays of lines 23-29 have been bound. *)
Lemma calc_acc_st_eval (h : store) (pr mr : ref) (p : list vec3) (m : list R)
  (G softening : R) :
  nth_error h pr = Some (Arr3 p) ->
  nth_error h mr = Some (Col m) ->
  calc_acc_st pr mr G softening h
  = if Nat.eqb (length m) (length p)
    then (Ok (length h + 7)%nat, h ++ allocated p m G softening)
    else (Err ValueError, h ++ separations p softening).
Proof.
  intros Hp Hm.
  replace (calc_acc_st pr mr G softening h)
    with (calc_acc_st pr mr G softening (h ++ [])) by now rewrite app_nil_r.
  unfold calc_acc_st, mbind.
  store_step (read_view_old h _ pr p AxisX Hp). store_step alloc_app.
  store_step (read_view_old h _ pr p AxisY Hp). store_step alloc_app.
  store_step (read_view_old h _ pr p AxisZ Hp). store_step alloc_app.
  store_step (load_sq_fresh h _ 0).
  store_step (load_sq_fresh h _ 1).
  store_step (load_sq_fresh h _ 2).
  store_step alloc_app.
  store_step (masked_pow_inplace_fresh h _ 3).
  store_step (weighted_st_fresh G h _ 0 3 mr).
  destruct (Nat.eqb_spec (length m) (length p)) as [Hl|Hl].
  - rewrite (weighted_ok vx) by exact Hl; cbv beta iota.
    store_step (weighted_st_fresh G h _ 1 3 mr).
    rewrite (weighted_ok vy) by exact Hl; cbv beta iota.
    store_step (weighted_st_fresh G h _ 2 3 mr).
    rewrite (weighted_ok vz) by exact Hl; cbv beta iota.
    store_step (load_col_fresh h _ 4).
    store_step (load_col_fresh h _ 5).
    store_step (load_col_fresh h _ 6).
    unfold lift. rewrite hstack3_maps.
    store_step alloc_app.
    reflexivity.
  - rewrite (weighted_mismatch vx) by exact Hl; cbv beta iota.
    reflexivity.
Qed.

(** On arrays of matching shapes the reference returned holds the array
    the kernel computes on their values. *)
Lemma calc_acc_st_returns (h : store) (pr mr : ref) (p : list vec3)
  (m : list R) (G softening : R) :
  nth_error h pr = Some (Arr3 p) ->
  nth_error h mr = Some (Col m) ->
  length m = length p ->
  exists r a,
    fst (calc_acc_st pr mr G softening h) = Ok r
    /\ calc_acc p m G softening = Ok a
    /\ nth_error (snd (calc_acc_st pr mr G softening h)) r = Some (Arr3 a).
Proof.
  intros Hp Hm Hl.
  rewrite (calc_acc_st_eval h pr mr p m G softening Hp Hm), Hl, Nat.eqb_refl.
  exists (length h + 7)%nat, (map (pull3 G softening p m) p).
  split; [reflexivity|].
  split; [now apply calc_acc_rows|].
  cbn [snd]. rewrite nth_error_fresh. reflexivity.
Qed.

(** ** The cells a call leaves alone *)

Lemma firstn_snoc {A : Type} (n : nat) (h : list A) (v : A) :
  (n <= length h)%nat -> firstn n (h ++ [v]) = firstn n h.
Proof.
  intros H. rewrite firstn_app.
  replace (n - length h)%nat with 0%nat by lia.
  apply app_nil_r.
Qed.

Lemma firstn_list_set {A : Type} (n r : nat) (v : A) (h : list A) :
  (n <= r)%nat -> firstn n (list_set r v h) = firstn n h.
Proof.
  revert n r; induction h as [|a h IH]; intros n r H;
    destruct r as [|r]; destruct n as [|n]; simpl; try reflexivity; try lia.
  f_equal. apply IH. lia.
Qed.

Lemma list_set_length {A : Type} (r : nat) (v : A) (h : list A) :
  length (list_set r v h) = length h.
Proof.
  revert r; induction h as [|a h IH]; intros [|r]; simpl; auto.
Qed.

Section Frame.

Variable n : nat.

Lemma preserves_bind {A B : Type} (c : M A) (k : A -> M B) (Q : A -> Prop)
  (Q' : B -> Prop) :
  preserves n c Q ->
  (forall a, Q a -> preserves n (k a) Q') ->
  preserves n (mbind c k) Q'.
Proof.
  intros Hc Hk h Hn. unfold mbind.
  destruct (Hc h Hn) as (Hf & Hlen & HQ).
  destruct (c h) as [[a|e] h1]; simpl in *.
  - destruct (Hk a HQ h1 Hlen) as (Hf' & Hlen' & HQ').
    split; [congruence | auto].
  - auto.
Qed.

Lemma preserves_mret {A : Type} (a : A) (Q : A -> Prop) :
  Q a -> preserves n (mret a) Q.
Proof. intros H h Hn; simpl; auto. Qed.

Lemma preserves_lift {A : Type} (r : result A) :
  preserves n (lift r) (fun _ => True).
Proof. intros h Hn; simpl; repeat split; auto. destruct r; auto. Qed.

Lemma preserves_alloc (v : array) :
  preserves n (alloc v) (fun r => (n <= r)%nat).
Proof.
  intros h Hn; simpl. rewrite firstn_snoc, length_app by exact Hn.
  repeat split; auto; lia.
Qed.

Lemma preserves_load (r : ref) : preserves n (load r) (fun _ => True).
Proof.
  intros h Hn. unfold load. destruct (nth_error h r); simpl; auto.
Qed.

Lemma preserves_load_arr3 (r : ref) :
  preserves n (load_arr3 r) (fun _ => True).
Proof.
  eapply preserves_bind; [apply preserves_load|].
  intros [a|c|m] _; (apply preserves_mret || apply preserves_lift); exact I.
Qed.

Lemma preserves_load_col (r : ref) :
  preserves n (load_col r) (fun _ => True).
Proof.
  eapply preserves_bind; [apply preserves_load|].
  intros [a|c|m] _; (apply preserves_mret || apply preserves_lift); exact I.
Qed.

Lemma preserves_load_sq (r : ref) :
  preserves n (load_sq r) (fun _ => True).
Proof.
  eapply preserves_bind; [apply preserves_load|].
  intros [a|c|m] _; (apply preserves_mret || apply preserves_lift); exact I.
Qed.

Lemma preserves_read_view (w : view) :
  preserves n (read_view w) (fun _ => True).
Proof.
  eapply preserves_bind; [apply preserves_load_arr3|].
  intros a _. apply preserves_mret. exact I.
Qed.

(** A write into a cell allocated after the first [n] keeps these. *)
Lemma preserves_overwrite (r : ref) (v : array) :
  (n <= r)%nat -> preserves n (overwrite r v) (fun _ => True).
Proof.
  intros Hr h Hn. unfold overwrite.
  destruct (Nat.ltb_spec r (length h)); simpl; auto.
  rewrite firstn_list_set, list_set_length by exact Hr. auto.
Qed.

Lemma preserves_masked_pow_inplace (r : ref) :
  (n <= r)%nat -> preserves n (masked_pow_inplace r) (fun _ => True).
Proof.
  intros Hr. unfold masked_pow_inplace.
  eapply preserves_bind; [apply preserves_load_sq | intros m _].
  eapply preserves_bind; [apply preserves_load_sq | intros m' _].
  eapply preserves_bind; [apply preserves_load_sq | intros m'' _].
  now apply preserves_overwrite.
Qed.

Lemma preserves_weighted_st (G : R) (d w mass : ref) :
  preserves n (weighted_st G d w mass) (fun r => (n <= r)%nat).
Proof.
  unfold weighted_st.
  eapply preserves_bind; [apply preserves_load_sq | intros dm _].
  eapply preserves_bind; [apply preserves_load_sq | intros im _].
  eapply preserves_bind; [apply preserves_load_col | intros mv _].
  eapply preserves_bind; [apply preserves_lift | intros c _].
  apply preserves_alloc.
Qed.

Lemma preserves_calc_acc_st (pr mr : ref) (G softening : R) :
  preserves n (calc_acc_st pr mr G softening) (fun r => (n <= r)%nat).
Proof.
  unfold calc_acc_st.
  eapply preserves_bind; [apply preserves_read_view | intros xv _].
  eapply preserves_bind; [apply preserves_alloc | intros dx Hdx].
  eapply preserves_bind; [apply preserves_read_view | intros yv _].
  eapply preserves_bind; [apply preserves_alloc | intros dy Hdy].
  eapply preserves_bind; [apply preserves_read_view | intros zv _].
  eapply preserves_bind; [apply preserves_alloc | intros dz Hdz].
  eapply preserves_bind; [apply preserves_load_sq | intros dxm _].
  eapply preserves_bind; [apply preserves_load_sq | intros dym _].
  eapply preserves_bind; [apply preserves_load_sq | intros dzm _].
  eapply preserves_bind; [apply preserves_alloc | intros inv_r3 Hinv].
  eapply preserves_bind;
    [apply preserves_masked_pow_inplace; exact Hinv | intros _ _].
  eapply preserves_bind; [apply preserves_weighted_st | intros ax _].
  eapply preserves_bind; [apply preserves_weighted_st | intros ay _].
  eapply preserves_bind; [apply preserves_weighted_st | intros az _].
  eapply preserves_bind; [apply preserves_load_col | intros axv _].
  eapply preserves_bind; [apply preserves_load_col | intros ayv _].
  eapply preserves_bind; [apply preserves_load_col | intros azv _].
  eapply preserves_bind; [apply preserves_lift | intros a _].
  apply preserves_alloc.
Qed.

End Frame.

(** C9. [calc_acc] does not mutate its inputs: whatever the store and the
    references it is called with, the arrays of the store are unchanged
    when it returns or raises; the store has only grown by the arrays the
    call has allocated, and the one array overwritten in place is among
    these. *)
Theorem calc_acc_keeps_inputs (h : store) (pr mr : ref) (G softening : R) :
  exists fresh, snd (calc_acc_st pr mr G softening h) = h ++ fresh.
Proof.
  destruct (preserves_calc_acc_st (length h) pr mr G softening h (le_n _))
    as (Hf & _ & _).
  exists (skipn (length h) (snd (calc_acc_st pr mr G softening h))).
  rewrite <- (firstn_skipn (length h)
                (snd (calc_acc_st pr mr G softening h))) at 1.
  now rewrite Hf, firstn_all.
Qed.

(** C7 as the code has it. A call whose masses have another leading
    dimension than its positions returns no accelerations: the matrix
    product of line 31 raises ValueError, when the separations and the
    inverse-cube array of lines 23-29 have been computed; nothing is
    broadcast or truncated. *)
Theorem shape_mismatch_raises (h : store) (pr mr : ref) (p : list vec3)
  (m : list R) (G softening : R) :
  nth_error h pr = Some (Arr3 p) ->
  nth_error h mr = Some (Col m) ->
  length m <> length p ->
  calc_acc_st pr mr G softening h
  = (Err ValueError, h ++ separations p softening)
  /\ calc_acc p m G softening = Err ValueError.
Proof.
  intros Hp Hm Hl. split; [|now apply calc_acc_mismatch].
  rewrite (calc_acc_st_eval h pr mr p m G softening Hp Hm).
  destruct (Nat.eqb_spec (length m) (length p)); [contradiction | reflexivity].
Qed.

Lemma shape_mismatch_raises_witness :
  calc_acc_st 0%nat 1%nat 1 0 [Arr3 [V3 0 0 0; V3 1 0 0]; Col [1]]
  = (Err ValueError,
     [Arr3 [V3 0 0 0; V3 1 0 0]; Col [1]]
     ++ separations [V3 0 0 0; V3 1 0 0] 0)
  /\ calc_acc [V3 0 0 0; V3 1 0 0] [1] 1 0 = Err ValueError.
Proof.
  apply (shape_mismatch_raises [Arr3 [V3 0 0 0; V3 1 0 0]; Col [1]] 0%nat 1%nat
           [V3 0 0 0; V3 1 0 0] [1] 1 0);
    simpl; (reflexivity || lia).
Defined.

(** C7 as stated fails: the call is not rejected before any computation,
    the store holds four new arrays when the exception is raised. *)
Lemma shape_mismatch_not_at_call_boundary :
  ~ (forall (h : store) (pr mr : ref) (p : list vec3) (m : list R)
       (G softening : R),
        nth_error h pr = Some (Arr3 p) ->
        nth_error h mr = Some (Col m) ->
        length m <> length p ->
        exists e, calc_acc_st pr mr G softening h = (Err e, h)).
Proof.
  intros H.
  destruct (H [Arr3 [V3 0 0 0; V3 1 0 0]; Col [1]] 0%nat 1%nat
              [V3 0 0 0; V3 1 0 0] [1] 1 0 eq_refl eq_refl)
    as [e He]; [simpl; lia|].
  rewrite (calc_acc_st_eval
             [Arr3 [V3 0 0 0; V3 1 0 0]; Col [1]] 0%nat 1%nat
             [V3 0 0 0; V3 1 0 0] [1] 1 0 eq_refl eq_refl) in He.
  simpl in He. discriminate He.
Qed.

(** ** One iteration of the loop *)

Lemma iadd_same (a b : list vec3) :
  length b = length a -> iadd a b = Ok (zip_with vplus a b).
Proof.
  intros H. unfold iadd. now rewrite H, Nat.eqb_refl.
Qed.

Lemma arr_mul_length (a : list vec3) (k : R) : length (arr_mul a k) = length a.
Proof. apply length_map. Qed.

Lemma arr_div_length (a : list vec3) (k : R) : length (arr_div a k) = length a.
Proof. apply length_map. Qed.

Lemma zip_with_map_r {A B C D : Type} (f : A -> C -> D) (g : B -> C) :
  forall (l : list A) (l' : list B),
    zip_with f l (map g l') = zip_with (fun a b => f a (g b)) l l'.
Proof.
  induction l as [|a l IH]; intros [|b l']; simpl; try reflexivity.
  now rewrite IH.
Qed.

Lemma zip_with_ext {A B C : Type} (f g : A -> B -> C) :
  (forall a b, f a b = g a b) ->
  forall (l : list A) (l' : list B), zip_with f l l' = zip_with g l l'.
Proof.
  intros H; induction l as [|a l IH]; intros [|b l']; simpl; try reflexivity.
  now rewrite H, IH.
Qed.

(** [v += a * dt / 2.0] is the half-kick [v += a · dt/2]. *)
Lemma half_kick (v a : list vec3) (dt : R) :
  zip_with vplus v (arr_div (arr_mul a dt) 2) = kick v a (dt / 2).
Proof.
  unfold arr_div, arr_mul, kick. rewrite map_map, zip_with_map_r.
  apply zip_with_ext; intros r b.
  unfold vplus, vtimes; simpl. f_equal; field.
Qed.

(** [p += v * dt] is the drift [p += v · dt]. *)
Lemma drift (p v : list vec3) (dt : R) :
  zip_with vplus p (arr_mul v dt) = kick p v dt.
Proof.
  unfold arr_mul, kick. rewrite zip_with_map_r. reflexivity.
Qed.

Lemma kick_length (v a : list vec3) (h : R) :
  length a = length v -> length (kick v a h) = length v.
Proof. apply zip_with_length. Qed.

Lemma firstn_list_set_snoc {A : Type} (k : nat) (v : A) (l : list A) :
  (k < length l)%nat -> firstn (k + 1) (list_set k v l) = firstn k l ++ [v].
Proof.
  revert k; induction l as [|a l IH]; intros [|k] H; simpl in *; try lia.
  - reflexivity.
  - f_equal. apply IH. lia.
Qed.

Lemma skipn_list_set {A : Type} (k : nat) (v : A) (l : list A) :
  skipn (k + 1) (list_set k v l) = skipn (k + 1) l.
Proof.
  revert k; induction l as [|a l IH]; intros [|k]; simpl; try reflexivity.
  apply IH.
Qed.

Lemma nth_list_set_other {A : Type} (k j : nat) (v d : A) (l : list A) :
  j <> k -> nth j (list_set k v l) d = nth j l d.
Proof.
  revert k j; induction l as [|a l IH]; intros [|k] [|j] H; simpl;
    try reflexivity; try congruence.
  apply IH. congruence.
Qed.

Section Step.

Variables (mass : list R) (G softening dt : R) (plotRealTime : bool).
Variables (Nt N L : nat).
Hypothesis mass_shape : length mass = N.

(** With arrays of one shape and a snapshot left to fill, an iteration
    succeeds, and its result is the half-kick, the drift, the kernel at
    the new positions, the second half-kick with the new accelerations,
    the time advanced by [dt], and the new positions in snapshot [i+1]. *)
Lemma step_shaped (i : nat) (s : sim) :
  shaped N L s -> (i + 1 < L)%nat ->
  let vel1 := kick (vel s) (acc s) (dt / 2) in
  let pos1 := kick (pos s) vel1 dt in
  let acc1 := map (pull3 G softening pos1 mass) pos1 in
  let vel2 := kick vel1 acc1 (dt / 2) in
  let save1 := list_set (i + 1) pos1 (pos_save s) in
  step mass G softening dt plotRealTime Nt i s
  = Ok (Sim pos1 vel2 acc1 (t s + dt) save1
          (if plotRealTime || Nat.eqb i (Nt - 1)
           then plt_log s ++ frame i pos1 save1
           else plt_log s))
  /\ calc_acc pos1 mass G softening = Ok acc1
  /\ shaped N L (Sim pos1 vel2 acc1 (t s + dt) save1
                   (if plotRealTime || Nat.eqb i (Nt - 1)
                    then plt_log s ++ frame i pos1 save1
                    else plt_log s)).
Proof.
  intros (Hp & Hv & Ha & Hs) Hi vel1 pos1 acc1 vel2 save1.
  assert (Hv1 : length vel1 = N)
    by (unfold vel1; rewrite kick_length; congruence).
  assert (Hp1 : length pos1 = N)
    by (unfold pos1; rewrite kick_length; congruence).
  assert (Ha1 : length acc1 = N) by (unfold acc1; now rewrite length_map).
  assert (Hv2 : length vel2 = N)
    by (unfold vel2; rewrite kick_length; congruence).
  assert (Hc : calc_acc pos1 mass G softening = Ok acc1)
    by (apply calc_acc_rows; congruence).
  split; [|split; [exact Hc|]].
  - unfold step.
    rewrite iadd_same
      by (rewrite arr_div_length, arr_mul_length; congruence).
    rewrite half_kick. fold vel1. simpl rbind.
    rewrite iadd_same by (rewrite arr_mul_length; congruence).
    rewrite drift. fold pos1. simpl rbind.
    rewrite Hc. simpl rbind.
    rewrite iadd_same
      by (rewrite arr_div_length, arr_mul_length; congruence).
    rewrite half_kick. fold vel2. simpl rbind.
    unfold save_at.
    destruct (Nat.ltb_spec (i + 1) (length (pos_save s))); [|lia].
    reflexivity.
  - unfold shaped; simpl. unfold save1. rewrite list_set_length. auto.
Qed.

End Step.

(** ** The loop *)

Lemma loop_app (body : nat -> sim -> result sim) (l l' : list nat) (s : sim) :
  loop body (l ++ l') s = let* s' := loop body l s in loop body l' s'.
Proof.
  revert s; induction l as [|i l IH]; intros s; simpl; [reflexivity|].
  destruct (body i s); simpl; [apply IH | reflexivity].
Qed.

Lemma after_S (mass : list R) (G softening dt : R) (plotRealTime : bool)
  (Nt : nat) (s0 : sim) (k : nat) :
  after mass G softening dt plotRealTime Nt s0 (S k)
  = let* s := after mass G softening dt plotRealTime Nt s0 k in
    step mass G softening dt plotRealTime Nt k s.
Proof.
  unfold after. rewrite seq_S, loop_app. simpl.
  destruct (loop _ (seq 0 k) s0); simpl; [|reflexivity].
  now destruct (step mass G softening dt plotRealTime Nt k a).
Qed.

Lemma saved_paths_app (l l' : list plt_event) :
  saved_paths (l ++ l') = saved_paths l ++ saved_paths l'.
Proof. apply flat_map_app. Qed.

Lemma saved_paths_frame (i : nat) (p : list vec3) (save : list (list vec3)) :
  saved_paths (frame i p save) = [frame_path i].
Proof. reflexivity. Qed.

(** The plots do not feed back into the simulation. *)
Lemma step_agree (mass : list R) (G softening dt : R) (b b' : bool)
  (Nt Nt' : nat) (i : nat) (s s' : sim) :
  core s = core s' ->
  agree (step mass G softening dt b Nt i s)
    (step mass G softening dt b' Nt' i s').
Proof.
  destruct s, s'; unfold core; simpl; intros H.
  injection H as -> -> -> -> ->.
  unfold step, agree; simpl.
  destruct (iadd _ _) as [v1|e]; simpl; [|reflexivity].
  destruct (iadd _ _) as [p1|e]; simpl; [|reflexivity].
  destruct (calc_acc _ _ _ _) as [a1|e]; simpl; [|reflexivity].
  destruct (iadd _ _) as [v2|e]; simpl; [|reflexivity].
  destruct (save_at _ _ _) as [sv1|e]; simpl; reflexivity.
Qed.

Lemma after_agree (mass : list R) (G softening dt : R) (b b' : bool)
  (Nt Nt' : nat) (s0 s0' : sim) (k : nat) :
  core s0 = core s0' ->
  agree (after mass G softening dt b Nt s0 k)
    (after mass G softening dt b' Nt' s0' k).
Proof.
  intros H0. induction k as [|k IH]; [exact H0|].
  rewrite !after_S.
  destruct (after mass G softening dt b Nt s0 k) as [s|e],
           (after mass G softening dt b' Nt' s0' k) as [s'|e'];
    simpl in *; try contradiction; [|exact IH].
  now apply step_agree.
Qed.

Section Loop.

Variables (mass : list R) (G softening dt : R) (plotRealTime : bool).
Variables (Nt N : nat) (s0 : sim).
Hypothesis mass_shape : length mass = N.
Hypothesis start_shape : shaped N (Nt + 1) s0.

(** The loop reaches every iteration; it keeps the shapes and snapshot 0,
    advances the time by [dt] per iteration and saves the frames of the
    iterations that render. *)
Lemma after_invariant (k : nat) :
  (k <= Nt)%nat ->
  exists s,
    after mass G softening dt plotRealTime Nt s0 k = Ok s
    /\ shaped N (Nt + 1) s
    /\ nth 0 (pos_save s) [] = nth 0 (pos_save s0) []
    /\ t s = t s0 + INR k * dt
    /\ saved_paths (plt_log s)
       = saved_paths (plt_log s0)
         ++ map frame_path
              (filter (fun i => plotRealTime || Nat.eqb i (Nt - 1)) (seq 0 k)).
Proof.
  induction k as [|k IH]; intros Hk.
  - exists s0. repeat split; try apply start_shape.
    + simpl. ring.
    + simpl. now rewrite app_nil_r.
  - destruct IH as (s & Hs & Hsh & H0 & Ht & Hlog); [lia|].
    destruct (step_shaped mass G softening dt plotRealTime Nt N (Nt + 1)
                mass_shape k s Hsh) as (Hstep & _ & Hsh'); [lia|].
    eexists. rewrite after_S, Hs. simpl rbind.
    split; [exact Hstep|].
    split; [exact Hsh'|].
    cbn [pos_save t plt_log].
    split; [rewrite nth_list_set_other by lia; exact H0|].
    split; [rewrite Ht, S_INR; ring|].
    rewrite seq_S, filter_app, map_app, app_assoc, <- Hlog. simpl.
    destruct (plotRealTime || Nat.eqb k (Nt - 1)); simpl.
    + now rewrite saved_paths_app, saved_paths_frame.
    + now rewrite app_nil_r.
Qed.

(** An iteration of the loop is the transition of the specification. *)
Lemma after_step (k : nat) :
  (k < Nt)%nat ->
  exists s s',
    after mass G softening dt plotRealTime Nt s0 k = Ok s
    /\ after mass G softening dt plotRealTime Nt s0 (S k) = Ok s'
    /\ spec_step (fun p => calc_acc p mass G softening) dt (phys_of k s)
       = Ok (phys_of (S k) s')
    /\ skipn (k + 2) (pos_save s') = skipn (k + 2) (pos_save s).
Proof.
  intros Hk.
  destruct (after_invariant k) as (s & Hs & Hsh & _); [lia|].
  destruct (step_shaped mass G softening dt plotRealTime Nt N (Nt + 1)
              mass_shape k s Hsh) as (Hstep & Hc & Hsh'); [lia|].
  destruct Hsh as (_ & _ & _ & Hlen).
  exists s. eexists.
  split; [exact Hs|].
  split; [rewrite after_S, Hs; exact Hstep|].
  split.
  - unfold spec_step, phys_of. cbn [positions velocities accelerations time history].
    rewrite Hc. simpl rbind. cbn [pos vel acc t pos_save].
    do 2 f_equal.
    replace (S k + 1)%nat with ((k + 1) + 1)%nat by lia.
    rewrite firstn_list_set_snoc by lia. reflexivity.
  - cbn [pos_save].
    replace (k + 2)%nat with ((k + 1) + 1)%nat by lia.
    apply skipn_list_set.
Qed.

End Loop.

(** C2. Every iteration of the main loop is the transition of the
    specification: half-kick with the accelerations of the previous
    iteration, drift, accelerations recomputed by [calc_acc] at the new
    positions, second half-kick, [t += dt], and the new positions appended
    to the history; the snapshots not yet reached are left as they are. *)
Theorem leapfrog_iteration (mass : list R) (G softening dt : R)
  (plotRealTime : bool) (Nt N : nat) (s0 : sim) (k : nat) :
  length mass = N ->
  shaped N (Nt + 1) s0 ->
  (k < Nt)%nat ->
  exists s s',
    after mass G softening dt plotRealTime Nt s0 k = Ok s
    /\ after mass G softening dt plotRealTime Nt s0 (S k) = Ok s'
    /\ step mass G softening dt plotRealTime Nt k s = Ok s'
    /\ spec_step (fun p => calc_acc p mass G softening) dt (phys_of k s)
       = Ok (phys_of (S k) s')
    /\ skipn (k + 2) (pos_save s') = skipn (k + 2) (pos_save s).
Proof.
  intros Hm Hs0 Hk.
  destruct (after_step mass G softening dt plotRealTime Nt N s0 Hm Hs0 k Hk)
    as (s & s' & Hs & Hs' & Hspec & Hrest).
  exists s, s'. repeat split; try assumption.
  rewrite after_S, Hs in Hs'. exact Hs'.
Qed.

Lemma leapfrog_iteration_witness :
  exists s s',
    after [1; 1] 1 0 1 true 2 (start [V3 0 0 0; V3 1 0 0] [V3 0 0 0; V3 0 0 0]
                                 [V3 1 0 0; V3 (-1) 0 0]
                                 (save0 [V3 0 0 0; V3 1 0 0] 2)) 1 = Ok s
    /\ after [1; 1] 1 0 1 true 2 (start [V3 0 0 0; V3 1 0 0]
                                    [V3 0 0 0; V3 0 0 0]
                                    [V3 1 0 0; V3 (-1) 0 0]
                                    (save0 [V3 0 0 0; V3 1 0 0] 2)) 2 = Ok s'
    /\ step [1; 1] 1 0 1 true 2 1 s = Ok s'
    /\ spec_step (fun p => calc_acc p [1; 1] 1 0) 1 (phys_of 1 s)
       = Ok (phys_of 2 s')
    /\ skipn (1 + 2) (pos_save s') = skipn (1 + 2) (pos_save s).
Proof.
  apply (leapfrog_iteration [1; 1] 1 0 1 true 2 2
           (start [V3 0 0 0; V3 1 0 0] [V3 0 0 0; V3 0 0 0]
              [V3 1 0 0; V3 (-1) 0 0] (save0 [V3 0 0 0; V3 1 0 0] 2)) 1);
    [reflexivity | repeat split | lia].
Defined.

(** ** The run *)

Lemma ceil_bounds (r : R) : r <= IZR (ceil r) < r + 1.
Proof.
  unfold ceil. rewrite opp_IZR.
  destruct (base_Int_part (- r)) as [H1 H2]. lra.
Qed.

Lemma ceil_nonneg (r : R) : 0 <= r -> (0 <= ceil r)%Z.
Proof.
  intros H. apply le_IZR. destruct (ceil_bounds r). lra.
Qed.

Lemma ceil_one : ceil (1 / 1) = 1%Z.
Proof.
  destruct (ceil_bounds (1 / 1)) as [H1 H2].
  assert (Hlo : (1 <= ceil (1 / 1))%Z) by (apply le_IZR; lra).
  assert (Hhi : (ceil (1 / 1) < 2)%Z) by (apply lt_IZR; lra).
  lia.
Qed.

Lemma div_nonneg (a b : R) : 0 <= a -> 0 < b -> 0 <= a / b.
Proof.
  intros Ha Hb. unfold Rdiv.
  apply Rmult_le_pos; [exact Ha | left; now apply Rinv_0_lt_compat].
Qed.

Lemma save0_shape (pos0 : list vec3) (Nt : nat) :
  length (save0 pos0 Nt) = (Nt + 1)%nat
  /\ nth 0 (save0 pos0 Nt) [] = pos0.
Proof.
  unfold save0. rewrite list_set_length, repeat_length.
  split; [reflexivity|].
  replace (Nt + 1)%nat with (S Nt) by lia. reflexivity.
Qed.

Section Run.

Variables (pos0 vel0 : list vec3) (mass : list R) (G softening dt tEnd : R).
Hypothesis mass_shape : length mass = length pos0.
Hypothesis vel_shape : length vel0 = length pos0.
Hypothesis dt_pos : 0 < dt.
Hypothesis tEnd_nonneg : 0 <= tEnd.

(** A run reaches the end of its loop, after [ceil (tEnd/dt)] iterations
    from the state of line 77. *)
Lemma run_outcome (plotRealTime : bool) :
  let Nt := Z.to_nat (ceil (tEnd / dt)) in
  exists acc0 s,
    calc_acc pos0 mass G softening = Ok acc0
    /\ shaped (length pos0) (Nt + 1)
         (start pos0 vel0 acc0 (save0 pos0 Nt))
    /\ after mass G softening dt plotRealTime Nt
         (start pos0 vel0 acc0 (save0 pos0 Nt)) Nt = Ok s
    /\ run pos0 vel0 mass G softening dt tEnd plotRealTime
       = Ok (Outcome (Sim (pos s) (vel s) (acc s) (t s) (pos_save s)
                        (plt_log s ++ [PltShow]))
               (sample_times Nt dt) Nt).
Proof.
  intros Nt.
  pose proof (ceil_nonneg (tEnd / dt) (div_nonneg _ _ tEnd_nonneg dt_pos))
    as Hc.
  set (acc0 := map (pull3 G softening pos0 mass) pos0).
  assert (Hacc : calc_acc pos0 mass G softening = Ok acc0)
    by now apply calc_acc_rows.
  assert (Hsh : shaped (length pos0) (Nt + 1)
                  (start pos0 vel0 acc0 (save0 pos0 Nt))).
  { unfold shaped; simpl. repeat split; auto.
    - unfold acc0. apply length_map.
    - apply save0_shape. }
  destruct (after_invariant mass G softening dt plotRealTime Nt (length pos0)
              (start pos0 vel0 acc0 (save0 pos0 Nt)) mass_shape Hsh Nt
              (le_n _)) as (s & Hs & _).
  exists acc0, s.
  split; [exact Hacc|]. split; [exact Hsh|]. split; [exact Hs|].
  unfold run. rewrite Hacc. unfold rbind at 1.
  unfold steps. destruct (Req_dec_T dt 0) as [H0|_]; [lra|]. cbn [rbind].
  unfold init_save.
  destruct (Z.ltb_spec (ceil (tEnd / dt) + 1) 0) as [Hneg|_]; [lia|].
  replace (Z.to_nat (ceil (tEnd / dt) + 1)) with (Nt + 1)%nat
    by (unfold Nt; rewrite Z2Nat.inj_add by lia; reflexivity).
  unfold save_at. rewrite repeat_length.
  destruct (Nat.ltb_spec 0 (Nt + 1)); [|lia]. cbn [rbind].
  fold (save0 pos0 Nt). fold Nt.
  change (loop (step mass G softening dt plotRealTime Nt) (seq 0 Nt)
            (Sim pos0 vel0 acc0 0 (save0 pos0 Nt)
               [PltFigure; PltGridSpec; PltSubplot]))
    with (after mass G softening dt plotRealTime Nt
            (start pos0 vel0 acc0 (save0 pos0 Nt)) Nt).
  rewrite Hs. reflexivity.
Qed.

End Run.

Lemma sample_times_nth (Nt : nat) (dt : R) (i : nat) :
  (i <= Nt)%nat -> nth i (sample_times Nt dt) 0 = INR i * dt.
Proof.
  intros Hi. unfold sample_times.
  rewrite (nth_map_in _ _ i 0 0%nat) by (rewrite length_seq; lia).
  rewrite seq_nth by lia. reflexivity.
Qed.

(** C3. For a valid input, [run] produces [Nt+1] snapshots, where
    [Nt = ceil(tEnd/dt)] is the least integer not below [tEnd/dt];
    snapshot 0 is the initial positions; the times are [Nt+1] samples and
    the [i]-th is [i·dt]. *)
Theorem run_history (pos0 vel0 : list vec3) (mass : list R)
  (G softening dt tEnd : R) (plotRealTime : bool) :
  length mass = length pos0 ->
  length vel0 = length pos0 ->
  0 < dt ->
  0 <= tEnd ->
  exists out,
    run pos0 vel0 mass G softening dt tEnd plotRealTime = Ok out
    /\ n_steps out = Z.to_nat (ceil (tEnd / dt))
    /\ tEnd / dt <= INR (n_steps out) < tEnd / dt + 1
    /\ length (pos_save (final out)) = (n_steps out + 1)%nat
    /\ nth 0 (pos_save (final out)) [] = pos0
    /\ length (t_all out) = (n_steps out + 1)%nat
    /\ forall i, (i <= n_steps out)%nat -> nth i (t_all out) 0 = INR i * dt.
Proof.
  intros Hm Hv Hdt Ht.
  destruct (run_outcome pos0 vel0 mass G softening dt tEnd Hm Hv Hdt Ht
              plotRealTime) as (acc0 & s & Hacc & Hsh & Hs & Hrun).
  destruct (after_invariant mass G softening dt plotRealTime _ (length pos0)
              _ Hm Hsh _ (le_n _)) as (s1 & Hs1 & Hsh1 & H0 & _).
  rewrite Hs in Hs1. injection Hs1 as <-.
  eexists. split; [exact Hrun|]. cbn [n_steps final t_all pos_save].
  split; [reflexivity|].
  split.
  { rewrite INR_IZR_INZ, Z2Nat.id
      by (apply ceil_nonneg, div_nonneg; assumption).
    apply ceil_bounds. }
  split; [apply Hsh1|].
  split; [rewrite H0; apply save0_shape|].
  split.
  - unfold sample_times. now rewrite length_map, length_seq.
  - intros i Hi. now apply sample_times_nth.
Qed.

Lemma run_history_witness :
  exists out,
    run [V3 0 0 0; V3 1 0 0] [V3 0 1 0; V3 0 0 0] [1; 2] 1 0 1 1 true = Ok out
    /\ n_steps out = Z.to_nat (ceil (1 / 1))
    /\ 1 / 1 <= INR (n_steps out) < 1 / 1 + 1
    /\ length (pos_save (final out)) = (n_steps out + 1)%nat
    /\ nth 0 (pos_save (final out)) [] = [V3 0 0 0; V3 1 0 0]
    /\ length (t_all out) = (n_steps out + 1)%nat
    /\ forall i, (i <= n_steps out)%nat -> nth i (t_all out) 0 = INR i * 1.
Proof.
  apply (run_history [V3 0 0 0; V3 1 0 0] [V3 0 1 0; V3 0 0 0] [1; 2]
           1 0 1 1 true); simpl; (reflexivity || lra).
Defined.

(** C8 as the code has it. [run] renders inside its loop: it saves the
    frame [images/<i>.png] at every iteration when [plotRealTime] is on
    and at the last iteration when it is off.  The plots do not change
    the simulation: the positions, velocities, accelerations, time,
    snapshots and sample times are the same with either setting. *)
Theorem run_renders (pos0 vel0 : list vec3) (mass : list R)
  (G softening dt tEnd : R) (plotRealTime : bool) :
  length mass = length pos0 ->
  length vel0 = length pos0 ->
  0 < dt ->
  0 <= tEnd ->
  exists out,
    run pos0 vel0 mass G softening dt tEnd plotRealTime = Ok out
    /\ saved_paths (plt_log (final out))
       = map frame_path (rendered plotRealTime (n_steps out))
    /\ forall b,
        exists out',
          run pos0 vel0 mass G softening dt tEnd b = Ok out'
          /\ core (final out') = core (final out)
          /\ t_all out' = t_all out.
Proof.
  intros Hm Hv Hdt Ht.
  destruct (run_outcome pos0 vel0 mass G softening dt tEnd Hm Hv Hdt Ht
              plotRealTime) as (acc0 & s & Hacc & Hsh & Hs & Hrun).
  destruct (after_invariant mass G softening dt plotRealTime _ (length pos0)
              _ Hm Hsh _ (le_n _)) as (s1 & Hs1 & _ & _ & _ & Hlog).
  rewrite Hs in Hs1. injection Hs1 as <-.
  eexists. split; [exact Hrun|]. cbn [n_steps final t_all plt_log].
  split.
  - rewrite saved_paths_app, Hlog. simpl. now rewrite app_nil_r.
  - intros b.
    destruct (run_outcome pos0 vel0 mass G softening dt tEnd Hm Hv Hdt Ht b)
      as (acc0' & s' & Hacc' & _ & Hs' & Hrun').
    rewrite Hacc in Hacc'. injection Hacc' as <-.
    eexists. split; [exact Hrun'|]. cbn [final t_all].
    split; [|reflexivity].
    pose proof (after_agree mass G softening dt b plotRealTime
                  (Z.to_nat (ceil (tEnd / dt))) (Z.to_nat (ceil (tEnd / dt)))
                  _ _ (Z.to_nat (ceil (tEnd / dt)))
                  (eq_refl (core (start pos0 vel0 acc0
                                    (save0 pos0 (Z.to_nat (ceil (tEnd / dt)))))))) 
      as Hag.
    rewrite Hs, Hs' in Hag. exact Hag.
Qed.

Lemma run_renders_witness :
  exists out,
    run [V3 0 0 0; V3 1 0 0] [V3 0 1 0; V3 0 0 0] [1; 2] 1 0 1 1 false = Ok out
    /\ saved_paths (plt_log (final out))
       = map frame_path (rendered false (n_steps out))
    /\ forall b,
        exists out',
          run [V3 0 0 0; V3 1 0 0] [V3 0 1 0; V3 0 0 0] [1; 2] 1 0 1 1 b
          = Ok out'
          /\ core (final out') = core (final out)
          /\ t_all out' = t_all out.
Proof.
  apply (run_renders [V3 0 0 0; V3 1 0 0] [V3 0 1 0; V3 0 0 0] [1; 2]
           1 0 1 1 false); simpl; (reflexivity || lra).
Defined.

(** C8 as stated fails: with one body, one step and [plotRealTime] off,
    the log of the run is not only the calls made outside the loop; the
    frame [images/0.png] has been saved. *)
Lemma run_saves_a_frame :
  ~ (forall (pos0 vel0 : list vec3) (mass : list R)
       (G softening dt tEnd : R) (plotRealTime : bool) (out : outcome),
        run pos0 vel0 mass G softening dt tEnd plotRealTime = Ok out ->
        plt_log (final out) = [PltFigure; PltGridSpec; PltSubplot; PltShow]).
Proof.
  intros H.
  assert (Hm : length [1] = length [V3 0 0 0]) by reflexivity.
  assert (Hdt : 0 < 1) by lra.
  assert (Ht : 0 <= 1) by lra.
  destruct (run_outcome [V3 0 0 0] [V3 0 0 0] [1] 1 0 1 1 Hm Hm Hdt Ht false)
    as (acc0 & s & Hacc & Hsh & Hs & Hrun).
  destruct (after_invariant [1] 1 0 1 false _ 1 _ Hm Hsh _ (le_n _))
    as (s1 & Hs1 & _ & _ & _ & Hlog).
  rewrite Hs in Hs1. injection Hs1 as <-.
  specialize (H _ _ _ _ _ _ _ _ _ Hrun). cbn [final plt_log] in H.
  apply (f_equal saved_paths) in H.
  rewrite saved_paths_app, Hlog, ceil_one in H.
  discriminate H.
Qed.

(** ** More on the kernel *)

(** X1. A single body is not accelerated, whatever its position, its mass,
    [G] and the softening. *)
Theorem single_body_at_rest (p : vec3) (m G softening : R) :
  calc_acc [p] [m] G softening = Ok [vzero].
Proof.
  rewrite calc_acc_rows by reflexivity.
  unfold pull3, pull; simpl. do 2 f_equal.
  apply vec3_eq; simpl; ring.
Qed.

Lemma dot_ext_scaled (A : Type) (k : R) (f g : A -> R) (l : list A)
  (v : list R) :
  (forall a, g a = k * f a) -> dot (map g l) v = k * dot (map f l) v.
Proof.
  intros H. rewrite !dot_combine, <- Rsum_scal.
  apply Rsum_ext. intros am _. rewrite H. ring.
Qed.




Lemma weight_reflect (softening : R) (p q : vec3) :
  weight softening (vscale (-1) p) (vscale (-1) q) = weight softening p q.
Proof.
  unfold weight.
  assert (H : dist2 softening (vscale (-1) p) (vscale (-1) q)
              = dist2 softening p q) by (unfold dist2; simpl; ring).
  now rewrite H.
Qed.

Lemma pull_reflect (c : vec3 -> R) (G softening : R) (pos : list vec3)
  (mass : list R) (p : vec3) :
  (forall q, c (vscale (-1) q) = -1 * c q) ->
  pull c G softening (map (vscale (-1)) pos) mass (vscale (-1) p)
  = -1 * pull c G softening pos mass p.
Proof.
  intros Hc. unfold pull. rewrite map_map.
  apply dot_ext_scaled. intros q.
  rewrite weight_reflect, !Hc. ring.
Qed.

(** X3. Reflecting every position through the origin reflects every
    acceleration. *)
Theorem calc_acc_reflection (pos : list vec3) (mass : list R)
  (G softening : R) :
  length mass = length pos ->
  exists a,
    calc_acc pos mass G softening = Ok a
    /\ calc_acc (map (vscale (-1)) pos) mass G softening
       = Ok (map (vscale (-1)) a).
Proof.
  intros Hl.
  exists (map (pull3 G softening pos mass) pos).
  rewrite !calc_acc_rows by (rewrite ?length_map; exact Hl).
  split; [reflexivity|].
  rewrite !map_map. f_equal. apply map_ext; intros p.
  unfold pull3.
  rewrite !pull_reflect by (intros q; reflexivity).
  reflexivity.
Qed.

Lemma calc_acc_reflection_witness :
  exists a,
    calc_acc [V3 0 0 0; V3 3 4 0] [1; 2] 1 0 = Ok a
    /\ calc_acc (map (vscale (-1)) [V3 0 0 0; V3 3 4 0]) [1; 2] 1 0
       = Ok (map (vscale (-1)) a).
Proof.
  apply (calc_acc_reflection [V3 0 0 0; V3 3 4 0] [1; 2] 1 0); reflexivity.
Defined.

(** ** The softening bounds the inverse-cube factor *)





(** ** The array a call returns *)

(** X5. On an N x 3 array and a column of N masses the call returns a
    reference to a new cell of the store, which holds the accelerations
    [calc_acc] computes on the values of the two arrays. *)
Theorem calc_acc_st_fresh_result (h : store) (pr mr : ref) (p : list vec3)
  (m : list R) (G softening : R) :
  nth_error h pr = Some (Arr3 p) ->
  nth_error h mr = Some (Col m) ->
  length m = length p ->
  exists r a,
    fst (calc_acc_st pr mr G softening h) = Ok r
    /\ nth_error h r = None
    /\ calc_acc p m G softening = Ok a
    /\ nth_error (snd (calc_acc_st pr mr G softening h)) r = Some (Arr3 a).
Proof.
  intros Hp Hm Hl.
  rewrite (calc_acc_st_eval h pr mr p m G softening Hp Hm), Hl, Nat.eqb_refl.
  exists (length h + 7)%nat, (map (pull3 G softening p m) p).
  split; [reflexivity|].
  split; [apply nth_error_None; lia|].
  split; [now apply calc_acc_rows|].
  cbn [snd]. rewrite nth_error_fresh. reflexivity.
Qed.

Lemma calc_acc_st_fresh_result_witness :
  exists r a,
    fst (calc_acc_st 0%nat 1%nat 1 0 [Arr3 [V3 0 0 0; V3 1 0 0]; Col [1; 2]])
    = Ok r
    /\ nth_error [Arr3 [V3 0 0 0; V3 1 0 0]; Col [1; 2]] r = None
    /\ calc_acc [V3 0 0 0; V3 1 0 0] [1; 2] 1 0 = Ok a
    /\ nth_error
         (snd (calc_acc_st 0%nat 1%nat 1 0
                 [Arr3 [V3 0 0 0; V3 1 0 0]; Col [1; 2]])) r
       = Some (Arr3 a).
Proof.
  apply (calc_acc_st_fresh_result [Arr3 [V3 0 0 0; V3 1 0 0]; Col [1; 2]]
           0%nat 1%nat [V3 0 0 0; V3 1 0 0] [1; 2] 1 0); reflexivity.
Defined.

(** ** The initial conditions *)










(** ** What the loop conserves *)




Section Conservation.

Variables (mass : list R) (G softening dt : R) (plotRealTime : bool).
Variables (Nt N : nat) (s0 : sim).
Hypothesis mass_shape : length mass = N.
Hypothesis start_shape : shaped N (Nt + 1) s0.
Hypothesis start_kernel : calc_acc (pos s0) mass G softening = Ok (acc s0).


End Conservation.



(** ** Time reversal *)




(** ** The history and the clock *)

Lemma nth_list_set_same {A : Type} (k : nat) (v d : A) (l : list A) :
  (k < length l)%nat -> nth k (list_set k v l) d = v.
Proof.
  revert k; induction l as [|a l IH]; intros [|k] H; simpl in *; try lia.
  - reflexivity.
  - apply IH. lia.
Qed.

Section Snapshots.

Variables (mass : list R) (G softening dt : R) (plotRealTime : bool).
Variables (Nt N : nat) (s0 : sim).
Hypothesis mass_shape : length mass = N.
Hypothesis start_shape : shaped N (Nt + 1) s0.

(** A snapshot, once written, is the positions of its iteration at every
    later iteration; the snapshots not yet reached are untouched. *)
Lemma after_snapshots (k : nat) :
  (k <= Nt)%nat ->
  exists s,
    after mass G softening dt plotRealTime Nt s0 k = Ok s
    /\ shaped N (Nt + 1) s
    /\ (forall j, (1 <= j <= k)%nat ->
          exists sj,
            after mass G softening dt plotRealTime Nt s0 j = Ok sj
            /\ nth j (pos_save s) [] = pos sj)
    /\ (forall j, (j = 0 \/ k < j)%nat ->
          nth j (pos_save s) [] = nth j (pos_save s0) []).
Proof.
  induction k as [|k IH]; intros Hk.
  - exists s0. repeat split; try apply start_shape; auto. intros j Hj; lia.
  - destruct IH as (s & Hs & Hsh & Hdone & Hrest); [lia|].
    destruct (step_shaped mass G softening dt plotRealTime Nt N (Nt + 1)
                mass_shape k s Hsh) as (Hstep & _ & Hsh'); [lia|].
    assert (Hlen : length (pos_save s) = (Nt + 1)%nat) by apply Hsh.
    eexists. rewrite after_S, Hs. cbn [rbind].
    split; [exact Hstep|]. split; [exact Hsh'|].
    cbn [pos_save]. split.
    + intros j Hj.
      destruct (Nat.eq_dec j (S k)) as [->|Hne].
      * eexists. rewrite after_S, Hs. cbn [rbind].
        split; [exact Hstep|]. cbn [pos].
        replace (S k) with (k + 1)%nat by lia.
        apply nth_list_set_same. lia.
      * destruct (Hdone j) as (sj & Hsj & Hnth); [lia|].
        exists sj. split; [exact Hsj|].
        rewrite nth_list_set_other by lia. exact Hnth.
    + intros j Hj.
      rewrite nth_list_set_other by lia. apply Hrest. lia.
Qed.

End Snapshots.

(** X11. The history of a run is never rewritten: for [j <= k <= Nt],
    snapshot [j] as it stands after [k] iterations is the positions after
    [j] iterations; when the loop is over the positions are the last
    snapshot. *)
Theorem run_history_is_the_trajectory (pos0 vel0 : list vec3) (mass : list R)
  (G softening dt tEnd : R) (plotRealTime : bool) :
  length mass = length pos0 ->
  length vel0 = length pos0 ->
  0 < dt ->
  0 <= tEnd ->
  exists out acc0,
    run pos0 vel0 mass G softening dt tEnd plotRealTime = Ok out
    /\ pos (final out) = nth (n_steps out) (pos_save (final out)) []
    /\ forall j k, (j <= k <= n_steps out)%nat ->
         exists sj sk,
           after mass G softening dt plotRealTime (n_steps out)
             (start pos0 vel0 acc0 (save0 pos0 (n_steps out))) j = Ok sj
           /\ after mass G softening dt plotRealTime (n_steps out)
                (start pos0 vel0 acc0 (save0 pos0 (n_steps out))) k = Ok sk
           /\ nth j (pos_save sk) [] = pos sj
           /\ (k = n_steps out -> pos_save sk = pos_save (final out)).
Proof.
  intros Hm Hv Hdt Ht.
  destruct (run_outcome pos0 vel0 mass G softening dt tEnd Hm Hv Hdt Ht
              plotRealTime) as (acc0 & s & Hacc & Hsh & Hs & Hrun).
  pose proof (after_snapshots mass G softening dt plotRealTime _ (length pos0)
                _ Hm Hsh) as Hinv.
  assert (Hall : forall j k,
             (j <= k <= Z.to_nat (ceil (tEnd / dt)))%nat ->
             exists sj sk,
               after mass G softening dt plotRealTime
                 (Z.to_nat (ceil (tEnd / dt)))
                 (start pos0 vel0 acc0
                    (save0 pos0 (Z.to_nat (ceil (tEnd / dt))))) j = Ok sj
               /\ after mass G softening dt plotRealTime
                    (Z.to_nat (ceil (tEnd / dt)))
                    (start pos0 vel0 acc0
                       (save0 pos0 (Z.to_nat (ceil (tEnd / dt))))) k = Ok sk
               /\ nth j (pos_save sk) [] = pos sj).
  { intros j k Hjk.
    destruct (Hinv k) as (sk & Hsk & _ & Hdone & Hrest); [lia|].
    destruct j as [|j].
    - eexists. exists sk. split; [reflexivity|]. split; [exact Hsk|].
      rewrite Hrest by lia. cbn [start pos_save pos]. apply save0_shape.
    - destruct (Hdone (S j)) as (sj & Hsj & Hnth); [lia|].
      exists sj, sk. auto. }
  eexists. exists acc0. split; [exact Hrun|]. cbn [final n_steps pos pos_save].
  split.
  - destruct (Hall (Z.to_nat (ceil (tEnd / dt))) (Z.to_nat (ceil (tEnd / dt))))
      as (sj & sk & Hsj & Hsk & Hnth); [lia|].
    rewrite Hs in Hsj, Hsk. injection Hsj as <-. injection Hsk as <-.
    now rewrite Hnth.
  - intros j k Hjk.
    destruct (Hall j k Hjk) as (sj & sk & Hsj & Hsk & Hnth).
    exists sj, sk. repeat split; auto.
    intros ->. rewrite Hs in Hsk. now injection Hsk as <-.
Qed.

Lemma run_history_is_the_trajectory_witness :
  exists out acc0,
    run [V3 0 0 0; V3 1 0 0] [V3 0 1 0; V3 0 0 0] [1; 2] 1 0 1 1 true = Ok out
    /\ pos (final out) = nth (n_steps out) (pos_save (final out)) []
    /\ forall j k, (j <= k <= n_steps out)%nat ->
         exists sj sk,
           after [1; 2] 1 0 1 true (n_steps out)
             (start [V3 0 0 0; V3 1 0 0] [V3 0 1 0; V3 0 0 0] acc0
                (save0 [V3 0 0 0; V3 1 0 0] (n_steps out))) j = Ok sj
           /\ after [1; 2] 1 0 1 true (n_steps out)
                (start [V3 0 0 0; V3 1 0 0] [V3 0 1 0; V3 0 0 0] acc0
                   (save0 [V3 0 0 0; V3 1 0 0] (n_steps out))) k = Ok sk
           /\ nth j (pos_save sk) [] = pos sj
           /\ (k = n_steps out -> pos_save sk = pos_save (final out)).
Proof.
  apply (run_history_is_the_trajectory [V3 0 0 0; V3 1 0 0]
           [V3 0 1 0; V3 0 0 0] [1; 2] 1 0 1 1 true);
    simpl; (reflexivity || lra).
Defined.



(** ** What a run rejects *)

(** X12. Masses of another leading dimension than the positions make the
    run fail with ValueError at its first call of the kernel, whatever the
    other arguments. *)
Theorem run_rejects_mass_shape (pos0 vel0 : list vec3) (mass : list R)
  (G softening dt tEnd : R) (plotRealTime : bool) :
  length mass <> length pos0 ->
  run pos0 vel0 mass G softening dt tEnd plotRealTime = Err ValueError.
Proof.
  intros Hl. unfold run. now rewrite calc_acc_mismatch.
Qed.

Lemma run_rejects_mass_shape_witness :
  run [V3 0 0 0; V3 1 0 0] [V3 0 0 0; V3 0 0 0] [1] 1 0 1 1 true
  = Err ValueError.
Proof.
  apply (run_rejects_mass_shape [V3 0 0 0; V3 1 0 0] [V3 0 0 0; V3 0 0 0]
           [1] 1 0 1 1 true); simpl; lia.
Defined.

(** X13. With matching masses, a time step of 0 makes the run fail with
    ZeroDivisionError when it computes the number of steps. *)
Theorem run_rejects_zero_dt (pos0 vel0 : list vec3) (mass : list R)
  (G softening tEnd : R) (plotRealTime : bool) :
  length mass = length pos0 ->
  run pos0 vel0 mass G softening 0 tEnd plotRealTime = Err ZeroDivisionError.
Proof.
  intros Hl. unfold run. rewrite calc_acc_rows by exact Hl. cbn [rbind].
  unfold steps. destruct (Req_dec_T 0 0) as [_|H]; [reflexivity | now elim H].
Qed.

Lemma run_rejects_zero_dt_witness :
  run [V3 0 0 0; V3 1 0 0] [V3 0 0 0; V3 0 0 0] [1; 2] 1 0 0 1 true
  = Err ZeroDivisionError.
Proof.
  apply (run_rejects_zero_dt [V3 0 0 0; V3 1 0 0] [V3 0 0 0; V3 0 0 0]
           [1; 2] 1 0 1 true); reflexivity.
Defined.

(** X14. With matching masses and a time step other than 0, an end time
    with [tEnd/dt <= -1] makes the run fail before its loop: with
    ValueError (a negative dimension for [pos_save]) when
    [tEnd/dt <= -2], with IndexError (no snapshot 0) otherwise. *)
Theorem run_rejects_negative_span (pos0 vel0 : list vec3) (mass : list R)
  (G softening dt tEnd : R) (plotRealTime : bool) :
  length mass = length pos0 ->
  dt <> 0 ->
  tEnd / dt <= -1 ->
  run pos0 vel0 mass G softening dt tEnd plotRealTime
  = Err (if Rle_dec (tEnd / dt) (-2) then ValueError else IndexError).
Proof.
  intros Hl Hdt Hr. unfold run. rewrite calc_acc_rows by exact Hl.
  cbn [rbind].
  unfold steps. destruct (Req_dec_T dt 0) as [H0|_]; [contradiction|].
  cbn [rbind]. unfold init_save.
  destruct (ceil_bounds (tEnd / dt)) as [Hlo Hhi].
  destruct (Rle_dec (tEnd / dt) (-2)) as [H2|H2].
  - assert (Hc : (ceil (tEnd / dt) < -1)%Z) by (apply lt_IZR; lra).
    destruct (Z.ltb_spec (ceil (tEnd / dt) + 1) 0); [reflexivity | lia].
  - assert (Hc1 : (-2 < ceil (tEnd / dt))%Z) by (apply lt_IZR; lra).
    assert (Hc2 : (ceil (tEnd / dt) < 0)%Z) by (apply lt_IZR; lra).
    replace (ceil (tEnd / dt)) with (-1)%Z by lia.
    reflexivity.
Qed.

Lemma run_rejects_negative_span_witness :
  run [V3 0 0 0; V3 1 0 0] [V3 0 0 0; V3 0 0 0] [1; 2] 1 0 1 (-3) true
  = Err (if Rle_dec (-3 / 1) (-2) then ValueError else IndexError).
Proof.
  apply (run_rejects_negative_span [V3 0 0 0; V3 1 0 0] [V3 0 0 0; V3 0 0 0]
           [1; 2] 1 0 1 (-3) true); [reflexivity | lra | lra].
Defined.

(** With matching masses, a time step other than 0 and a step count that
    is not negative, the run reaches its loop. *)
Lemma run_reaches_loop (pos0 vel0 : list vec3) (mass : list R)
  (G softening dt tEnd : R) (plotRealTime : bool) :
  length mass = length pos0 ->
  dt <> 0 ->
  (0 <= ceil (tEnd / dt))%Z ->
  run pos0 vel0 mass G softening dt tEnd plotRealTime
  = let* s := after mass G softening dt plotRealTime
                (Z.to_nat (ceil (tEnd / dt)))
                (start pos0 vel0 (map (pull3 G softening pos0 mass) pos0)
                   (save0 pos0 (Z.to_nat (ceil (tEnd / dt)))))
                (Z.to_nat (ceil (tEnd / dt))) in
    Ok (Outcome (Sim (pos s) (vel s) (acc s) (t s) (pos_save s)
                   (plt_log s ++ [PltShow]))
          (sample_times (Z.to_nat (ceil (tEnd / dt))) dt)
          (Z.to_nat (ceil (tEnd / dt)))).
Proof.
  intros Hl Hdt Hc.
  unfold run. rewrite calc_acc_rows by exact Hl. unfold rbind at 1.
  unfold steps. destruct (Req_dec_T dt 0) as [H0|_]; [contradiction|].
  unfold rbind at 1. unfold init_save.
  destruct (Z.ltb_spec (ceil (tEnd / dt) + 1) 0) as [Hneg|_]; [lia|].
  replace (Z.to_nat (ceil (tEnd / dt) + 1))
    with (Z.to_nat (ceil (tEnd / dt)) + 1)%nat
    by (rewrite Z2Nat.inj_add by lia; reflexivity).
  unfold save_at. rewrite repeat_length.
  destruct (Nat.ltb_spec 0 (Z.to_nat (ceil (tEnd / dt)) + 1)); [|lia].
  reflexivity.
Qed.

Lemma step_vel_mismatch (mass : list R) (G softening dt : R) (b : bool)
  (Nt i : nat) (s : sim) :
  length (acc s) = length (pos s) ->
  length (vel s) <> length (pos s) ->
  step mass G softening dt b Nt i s = Err ValueError.
Proof.
  destruct s as [p v a ts sv lg]; cbn [pos vel acc]; intros Ha Hv.
  unfold step; cbn [pos vel acc t pos_save plt_log].
  unfold iadd at 1. rewrite arr_div_length, arr_mul_length.
  destruct (Nat.eqb_spec (length a) (length v)) as [E|_]; [congruence|].
  destruct a as [|a0 [|a1 a']]; cbn [arr_mul arr_div map rbind];
    try reflexivity.
  unfold iadd at 1. rewrite arr_mul_length, length_map.
  destruct (Nat.eqb_spec (length v) (length p)) as [E|_]; [congruence|].
  destruct v as [|v0 [|v1 v']]; cbn [arr_mul map rbind]; try reflexivity.
  simpl in Ha, Hv. congruence.
Qed.

(** X15. Velocities of another leading dimension than the positions are
    rejected by the first iteration: with matching masses and positive
    [dt] and [tEnd] the run fails with ValueError. *)
Theorem run_rejects_vel_shape (pos0 vel0 : list vec3) (mass : list R)
  (G softening dt tEnd : R) (plotRealTime : bool) :
  length mass = length pos0 ->
  length vel0 <> length pos0 ->
  0 < dt ->
  0 < tEnd ->
  run pos0 vel0 mass G softening dt tEnd plotRealTime = Err ValueError.
Proof.
  intros Hl Hv Hdt Ht.
  assert (Hq : 0 < tEnd / dt) by (apply Rdiv_lt_0_compat; lra).
  destruct (ceil_bounds (tEnd / dt)) as [Hlo _].
  assert (Hc : (0 < ceil (tEnd / dt))%Z) by (apply lt_IZR; lra).
  rewrite run_reaches_loop by (auto; lra || lia).
  destruct (Z.to_nat (ceil (tEnd / dt))) as [|n] eqn:En; [lia|].
  unfold after. cbn [seq loop].
  rewrite step_vel_mismatch; [reflexivity | | exact Hv].
  cbn [start acc pos]. apply length_map.
Qed.

Lemma run_rejects_vel_shape_witness :
  run [V3 0 0 0; V3 1 0 0] [V3 0 0 0] [1; 2] 1 0 1 1 true = Err ValueError.
Proof.
  apply (run_rejects_vel_shape [V3 0 0 0; V3 1 0 0] [V3 0 0 0] [1; 2]
           1 0 1 1 true); simpl; (reflexivity || lia || lra).
Defined.

Lemma ceil_zero : ceil 0 = 0%Z.
Proof.
  destruct (ceil_bounds 0) as [H1 H2].
  assert (Hlo : (0 <= ceil 0)%Z) by (apply le_IZR; lra).
  assert (Hhi : (ceil 0 < 1)%Z) by (apply lt_IZR; lra).
  lia.
Qed.

(** X16. With an end time of 0 the loop does not run: the run succeeds
    with the positions and the velocities it was given, the single
    snapshot of the initial positions, the single sample time 0 and no
    frame; the shape of the velocities is not looked at. *)
Theorem run_no_steps (pos0 vel0 : list vec3) (mass : list R)
  (G softening dt : R) (plotRealTime : bool) :
  length mass = length pos0 ->
  dt <> 0 ->
  exists out,
    run pos0 vel0 mass G softening dt 0 plotRealTime = Ok out
    /\ n_steps out = 0%nat
    /\ pos (final out) = pos0
    /\ vel (final out) = vel0
    /\ calc_acc pos0 mass G softening = Ok (acc (final out))
    /\ t (final out) = 0
    /\ pos_save (final out) = [pos0]
    /\ t_all out = [0]
    /\ plt_log (final out) = [PltFigure; PltGridSpec; PltSubplot; PltShow].
Proof.
  intros Hl Hdt.
  assert (Hz : ceil (0 / dt) = 0%Z)
    by (replace (0 / dt) with 0 by (field; exact Hdt); apply ceil_zero).
  rewrite run_reaches_loop by (auto; lia).
  rewrite Hz. cbn [Z.to_nat after seq loop rbind].
  eexists. split; [reflexivity|].
  cbn [n_steps final pos vel acc t pos_save plt_log t_all start].
  repeat split.
  - now apply calc_acc_rows.
  - unfold sample_times. simpl. f_equal. ring.
Qed.

Lemma run_no_steps_witness :
  exists out,
    run [V3 0 0 0; V3 1 0 0] [V3 5 5 5] [1; 2] 1 0 1 0 true = Ok out
    /\ n_steps out = 0%nat
    /\ pos (final out) = [V3 0 0 0; V3 1 0 0]
    /\ vel (final out) = [V3 5 5 5]
    /\ calc_acc [V3 0 0 0; V3 1 0 0] [1; 2] 1 0 = Ok (acc (final out))
    /\ t (final out) = 0
    /\ pos_save (final out) = [[V3 0 0 0; V3 1 0 0]]
    /\ t_all out = [0]
    /\ plt_log (final out) = [PltFigure; PltGridSpec; PltSubplot; PltShow].
Proof.
  apply (run_no_steps [V3 0 0 0; V3 1 0 0] [V3 5 5 5] [1; 2] 1 0 1 true);
    [reflexivity | lra].
Defined.

(** ** The frames *)

Lemma string_append_length (a b : String.string) :
  String.length (String.append a b) = (String.length a + String.length b)%nat.
Proof.
  induction a as [|c a IH]; simpl; [reflexivity | now rewrite IH].
Qed.

Lemma string_append_inj_l (s x y : String.string) :
  String.append s x = String.append s y -> x = y.
Proof.
  induction s as [|c s IH]; simpl; intros H; [exact H|].
  injection H as H. now apply IH.
Qed.

Lemma string_append_inj_r (s : String.string) :
  forall x y : String.string,
    String.append x s = String.append y s -> x = y.
Proof.
  assert (Hlen : forall x y : String.string,
             String.append x s = String.append y s ->
             String.length x = String.length y).
  { intros x y H. apply (f_equal String.length) in H.
    rewrite !string_append_length in H. lia. }
  induction x as [|c x IH]; intros [|d y] H;
    pose proof (Hlen _ _ H) as Hl; simpl in Hl; try discriminate.
  - reflexivity.
  - simpl in H. injection H as -> H. f_equal. now apply IH.
Qed.

Lemma str_inj (i j : nat) : str i = str j -> i = j.
Proof.
  unfold str. intros H.
  apply (f_equal DecimalString.NilEmpty.uint_of_string) in H.
  rewrite !DecimalString.NilEmpty.usu in H.
  injection H as H.
  apply (f_equal Nat.of_uint) in H.
  now rewrite !DecimalNat.Unsigned.of_to in H.
Qed.

Lemma frame_path_inj (i j : nat) : frame_path i = frame_path j -> i = j.
Proof.
  unfold frame_path. intros H.
  apply string_append_inj_l, string_append_inj_r in H.
  now apply str_inj.
Qed.

Lemma NoDup_map_inj {A B : Type} (f : A -> B) (l : list A) :
  (forall a b, f a = f b -> a = b) -> NoDup l -> NoDup (map f l).
Proof.
  intros Hinj Hnd. induction Hnd as [|a l Hnin Hnd IH]; simpl; constructor.
  - intros Hin. apply in_map_iff in Hin. destruct Hin as (b & Hb & Hin).
    apply Hinj in Hb. now subst.
  - exact IH.
Qed.

(** X17. No frame of a run overwrites another: the paths of the files the
    run saves are pairwise distinct. *)
Theorem run_frames_distinct (pos0 vel0 : list vec3) (mass : list R)
  (G softening dt tEnd : R) (plotRealTime : bool) :
  length mass = length pos0 ->
  length vel0 = length pos0 ->
  0 < dt ->
  0 <= tEnd ->
  exists out,
    run pos0 vel0 mass G softening dt tEnd plotRealTime = Ok out
    /\ NoDup (saved_paths (plt_log (final out))).
Proof.
  intros Hm Hv Hdt Ht.
  destruct (run_outcome pos0 vel0 mass G softening dt tEnd Hm Hv Hdt Ht
              plotRealTime) as (acc0 & s & Hacc & Hsh & Hs & Hrun).
  destruct (after_invariant mass G softening dt plotRealTime _ (length pos0)
              _ Hm Hsh _ (le_n _)) as (s1 & Hs1 & _ & _ & _ & Hlog).
  rewrite Hs in Hs1. injection Hs1 as <-.
  eexists. split; [exact Hrun|]. cbn [final plt_log].
  rewrite saved_paths_app, Hlog. simpl. rewrite app_nil_r.
  apply NoDup_map_inj; [exact frame_path_inj|].
  apply NoDup_filter, seq_NoDup.
Qed.

Lemma run_frames_distinct_witness :
  exists out,
    run [V3 0 0 0; V3 1 0 0] [V3 0 1 0; V3 0 0 0] [1; 2] 1 0 1 1 true = Ok out
    /\ NoDup (saved_paths (plt_log (final out))).
Proof.
  apply (run_frames_distinct [V3 0 0 0; V3 1 0 0] [V3 0 1 0; V3 0 0 0]
           [1; 2] 1 0 1 1 true); simpl; (reflexivity || lra).
Defined.




(** ** The centre-of-mass frame and the run *)




(** X20. Masses and velocities whose leading dimensions differ, neither
    being 1, are rejected by the conversion with ValueError. *)
Theorem to_com_frame_rejects_shapes (mass : list R) (vel : list vec3) :
  length mass <> length vel ->
  length mass <> 1%nat ->
  length vel <> 1%nat ->
  to_com_frame mass vel = Err ValueError.
Proof.
  intros Hl Hm Hv.
  unfold to_com_frame, com_velocity, col_times.
  destruct (Nat.eqb_spec (length mass) (length vel)) as [E|_]; [contradiction|].
  destruct mass as [|m0 [|m1 ms]]; destruct vel as [|v0 [|v1 vs]];
    simpl in *; try reflexivity; congruence.
Qed.

Lemma to_com_frame_rejects_shapes_witness :
  to_com_frame [1; 2; 3] [V3 1 0 0; V3 0 2 0] = Err ValueError.
Proof.
  apply (to_com_frame_rejects_shapes [1; 2; 3] [V3 1 0 0; V3 0 2 0]);
    simpl; lia.
Defined.



